(** * MyInMemoryFS: the in-memory file store of bslab (src/myinmemoryfs.cpp)

    A shallow embedding of the FUSE callbacks of [MyInMemoryFS] and the
    properties of the file store that follow from them.

    Conventions of the embedding
    - C integers are mathematical integers ([Z]) with the conversions of an
      LP64 Linux target written out ([CInt]): [size_t] and [unsigned long]
      are 64-bit unsigned, [off_t] is 64-bit signed, [int] is 32-bit signed,
      [unsigned int] is 32-bit unsigned.
    - A [const char *] path is the [string] of its characters before the
      terminating NUL.
    - [std::unordered_map<std::string, MyFsFileInfo>] is a [gmap].
    - A heap buffer ([char *data]) is the list of the bytes of its
      allocation; [NULL] is the empty allocation.  An access outside the
      allocation has no defined result ([Undefined_behaviour]).
    - Every callback takes the state of the object and returns what the C++
      function returns together with the state it leaves behind.
    - [RETURN(x)] returns [x] as the [int] result of the callback; the
      logging macros leave the object alone and are not embedded. *)

From Stdlib Require Import ZArith Lia.
From Stdlib Require Import Strings.Byte Strings.Ascii.
From stdpp Require Import base gmap strings list.

Local Open Scope Z_scope.

(** ** C integer conversions *)

Module CInt.

Definition wrap_unsigned (w z : Z) : Z := z mod 2 ^ w.
Definition wrap_signed (w z : Z) : Z := (z + 2 ^ (w - 1)) mod 2 ^ w - 2 ^ (w - 1).

Definition to_size_t : Z → Z := wrap_unsigned 64.
Definition to_uint : Z → Z := wrap_unsigned 32.
Definition to_int : Z → Z := wrap_signed 32.
Definition to_off_t : Z → Z := wrap_signed 64.

Definition SIZE_MAX : Z := 2 ^ 64 - 1.
Definition UINT_MAX : Z := 2 ^ 32 - 1.
Definition INT_MAX : Z := 2 ^ 31 - 1.
Definition OFF_MAX : Z := 2 ^ 63 - 1.

End CInt.

(** ** <errno.h> and <sys/stat.h> (Linux values) *)

Module Errno.
Definition ENOENT : Z := 2.
Definition EEXIST : Z := 17.
Definition EMFILE : Z := 24.
Definition ENOSPC : Z := 28.
Definition ENAMETOOLONG : Z := 36.
End Errno.

Definition S_IFDIR : Z := 0x4000.  (* 0040000 *)
Definition S_IFREG : Z := 0x8000.  (* 0100000 *)

(** The octal number with the given digits, most significant first. *)
Definition octal (digits : list Z) : Z := foldl (λ acc d, 8 * acc + d) 0 digits.

(** ** Heap buffers *)

(** [realloc(p, n)]: an allocation of [n] bytes that keeps the first
    [min n (length p)] bytes of [p]; the bytes beyond them are whatever the
    allocator hands out, read off [fresh].  The allocation is taken to
    succeed. *)
Definition realloc (fresh : nat → byte) (p : list byte) (n : Z) : list byte :=
  take (Z.to_nat n) p ++ (fresh <$> seq (length p) (Z.to_nat n - length p)).

(** The [n] bytes at [p + off], when they lie inside the allocation [p].
    A copy of no bytes touches nothing. *)
Definition load (p : list byte) (off n : Z) : option (list byte) :=
  if decide (n = 0) then Some []
  else if decide (0 ≤ off ∧ off + n ≤ Z.of_nat (length p))
       then Some (take (Z.to_nat n) (drop (Z.to_nat off) p))
       else None.

(** The allocation [p] after [src] has been copied to [p + off], when the
    destination range lies inside [p]. *)
Definition store (p : list byte) (off : Z) (src : list byte) : option (list byte) :=
  if decide (src = []) then Some p
  else if decide (0 ≤ off ∧ off + Z.of_nat (length src) ≤ Z.of_nat (length p))
       then Some (take (Z.to_nat off) p ++ src
                    ++ drop (Z.to_nat off + length src)%nat p)
       else None.

(** ** Paths *)

Definition strlen (s : string) : Z := Z.of_nat (String.length s).

(** [path + 1] for a path that starts with "/". *)
Definition path_plus_1 (path : string) : string :=
  match path with
  | EmptyString => EmptyString
  | String _ rest => rest
  end.

(** ** Data model *)

(** Modelled from the spec: the struct [MyFsFileInfo] is declared in a header
    that is not part of the sources; its fields are those the callbacks use
    and section 3 of the specification lists.  [name] is a character array
    for names of at most [NAME_LENGTH] bytes; what [strcpy] does with a longer
    one is written out where the callbacks copy into it ([strcpy_name]). *)
Module MyFsFileInfo.
Record t : Type := mk {
  name : string;
  permissions : Z;
  owner : Z;
  group : Z;
  size : Z;
  data : list byte;
  lastAccess : Z;
  lastModification : Z;
  lastStatusChange : Z
}.

Definition set_name (v : string) (f : t) : t :=
  mk v (permissions f) (owner f) (group f) (size f) (data f)
     (lastAccess f) (lastModification f) (lastStatusChange f).
Definition set_permissions (v : Z) (f : t) : t :=
  mk (name f) v (owner f) (group f) (size f) (data f)
     (lastAccess f) (lastModification f) (lastStatusChange f).
Definition set_owner (v : Z) (f : t) : t :=
  mk (name f) (permissions f) v (group f) (size f) (data f)
     (lastAccess f) (lastModification f) (lastStatusChange f).
Definition set_group (v : Z) (f : t) : t :=
  mk (name f) (permissions f) (owner f) v (size f) (data f)
     (lastAccess f) (lastModification f) (lastStatusChange f).
Definition set_size (v : Z) (f : t) : t :=
  mk (name f) (permissions f) (owner f) (group f) v (data f)
     (lastAccess f) (lastModification f) (lastStatusChange f).
Definition set_data (v : list byte) (f : t) : t :=
  mk (name f) (permissions f) (owner f) (group f) (size f) v
     (lastAccess f) (lastModification f) (lastStatusChange f).

(** The content buffer is exactly [size] bytes long, and [size] is a
    [size_t]. *)
Definition well_formed (f : t) : Prop :=
  Z.of_nat (length (data f)) = size f ∧ size f ≤ CInt.SIZE_MAX.
End MyFsFileInfo.

(** The object: the file table and the static member [openFilesCount]. *)
Record MyInMemoryFS : Type := mkFS {
  files : gmap string MyFsFileInfo.t;
  openFilesCount : Z
}.

Definition set_files (m : gmap string MyFsFileInfo.t) (s : MyInMemoryFS) : MyInMemoryFS :=
  mkFS m (openFilesCount s).
Definition set_openFilesCount (c : Z) (s : MyInMemoryFS) : MyInMemoryFS :=
  mkFS (files s) c.

(** [struct stat], the fields [fuseGetattr] writes. *)
Record stat : Type := mkStat {
  st_uid : Z;
  st_gid : Z;
  st_atime : Z;
  st_mtime : Z;
  st_mode : Z;
  st_nlink : Z;
  st_size : Z
}.

(** What the callbacks read from their surroundings: the identity of the
    process, the clock and the content of freshly allocated memory. *)
Record host : Type := mkHost {
  getuid : Z;
  getgid : Z;
  time : Z;
  fresh : nat → byte
}.

(** How a call ends: it returns an [int], an exception leaves it
    ([files.at] throws [std::out_of_range]), or it accesses memory outside an
    allocation or beyond the end of an array. *)
Inductive outcome : Type :=
| Returned (ret : Z)
| Throws_out_of_range
| Undefined_behaviour.

(** [m.erase(k)]: the number of elements removed and the map left. *)
Definition erase (k : string) (m : gmap string MyFsFileInfo.t)
  : Z * gmap string MyFsFileInfo.t :=
  (if decide (is_Some (m !! k)) then 1 else 0, delete k m).

(** ** The callbacks *)

Section Callbacks.

(** The build-time limits [NAME_LENGTH], [NUM_DIR_ENTRIES] and
    [NUM_OPEN_FILES] are macros of a header that is not part of the
    sources; the callbacks are embedded for any values of them. *)
Variables NAME_LENGTH NUM_DIR_ENTRIES NUM_OPEN_FILES : Z.

Import Errno.

(** The object after construction: an empty table, no open file. *)
Definition initial : MyInMemoryFS := mkFS ∅ 0.

(** [new MyFsFileInfo()] as [fuseMknod] fills it in; the members it does
    not assign ([owner], [group]) are value-initialised. *)
Definition new_MyFsFileInfo (h : host) (path : string) (mode : Z) : MyFsFileInfo.t :=
  {| MyFsFileInfo.name := path_plus_1 path;
     MyFsFileInfo.permissions := mode;
     MyFsFileInfo.owner := 0;
     MyFsFileInfo.group := 0;
     MyFsFileInfo.size := 0;
     MyFsFileInfo.data := [];
     MyFsFileInfo.lastAccess := time h;
     MyFsFileInfo.lastModification := time h;
     MyFsFileInfo.lastStatusChange := time h |}.

Definition fuseMknod (h : host) (path : string) (mode : Z) (s : MyInMemoryFS)
  : outcome * MyInMemoryFS :=
  if decide (NAME_LENGTH < strlen (path_plus_1 path)) then
    (Returned (- ENAMETOOLONG), s)
  else if decide (is_Some (files s !! path)) then
    (Returned (- EEXIST), s)
  else if decide (NUM_DIR_ENTRIES ≤ Z.of_nat (size (files s))) then
    (Returned (- ENOSPC), s)
  else
    (Returned 0, set_files (<[path := new_MyFsFileInfo h path mode]> (files s)) s).

Definition fuseUnlink (path : string) (s : MyInMemoryFS) : outcome * MyInMemoryFS :=
  match files s !! path with
  | None => (Returned (- ENOENT), s)
  | Some _ =>
      let '(count, m) := erase path (files s) in
      (Returned (if decide (count = 1) then 0 else - ENOENT), set_files m s)
  end.

(** [strcpy(fileInfo.name, src)]: the name field takes a name of at most
    [NAME_LENGTH] characters, the bound [fuseMknod] tests before its own
    [strcpy]; a longer one is written beyond the field, into the members
    that follow it. *)
Definition strcpy_name (src : string) : option string :=
  if decide (strlen src ≤ NAME_LENGTH) then Some src else None.

Definition fuseRename (path newpath : string) (s : MyInMemoryFS)
  : outcome * MyInMemoryFS :=
  let m1 := if decide (is_Some (files s !! newpath))
            then (erase newpath (files s)).2
            else files s in
  match m1 !! path with                                 (* files.at(path) *)
  | None => (Throws_out_of_range, set_files m1 s)
  | Some fileInfo =>
      match strcpy_name (path_plus_1 newpath) with      (* strcpy *)
      | None => (Undefined_behaviour, set_files m1 s)
      | Some name =>
          let fileInfo := MyFsFileInfo.set_name name fileInfo in
          let m2 := <[newpath := fileInfo]> m1 in
          let m3 := (erase path m2).2 in
          (Returned 0, set_files m3 s)
      end
  end.

(** [statbuf] is an out-parameter: the callback returns it as it leaves it. *)
Definition fuseGetattr (h : host) (path : string) (statbuf : stat) (s : MyInMemoryFS)
  : outcome * stat * MyInMemoryFS :=
  let statbuf := mkStat (getuid h) (getgid h) (time h) (time h)
                        (st_mode statbuf) (st_nlink statbuf) (st_size statbuf) in
  if decide (path = "/") then
    (Returned 0,
     mkStat (st_uid statbuf) (st_gid statbuf) (st_atime statbuf) (st_mtime statbuf)
            (Z.lor S_IFDIR (octal [7; 5; 5])) 2 (st_size statbuf),
     s)
  else
    match files s !! path with
    | Some f =>
        (Returned 0,
         mkStat (st_uid statbuf) (st_gid statbuf) (st_atime statbuf) (st_mtime statbuf)
                (Z.lor S_IFREG (octal [6; 4; 4])) 1
                (CInt.to_off_t (MyFsFileInfo.size f)),
         s)
    | None => (Returned (- ENOENT), statbuf, s)
    end.

Definition fuseChmod (path : string) (mode : Z) (s : MyInMemoryFS)
  : outcome * MyInMemoryFS :=
  match files s !! path with
  | Some f =>
      (Returned 0, set_files (<[path := MyFsFileInfo.set_permissions mode f]> (files s)) s)
  | None => (Returned (- ENOENT), s)
  end.

Definition fuseChown (path : string) (uid gid : Z) (s : MyInMemoryFS)
  : outcome * MyInMemoryFS :=
  match files s !! path with
  | None => (Returned (- ENOENT), s)
  | Some f =>
      let f := if decide (0 ≤ uid) then MyFsFileInfo.set_owner uid f else f in
      let f := if decide (0 ≤ gid) then MyFsFileInfo.set_group gid f else f in
      (Returned 0, set_files (<[path := f]> (files s)) s)
  end.

Definition fuseOpen (path : string) (s : MyInMemoryFS) : outcome * MyInMemoryFS :=
  match files s !! path with
  | None => (Returned (- ENOENT), s)
  | Some _ =>
      if decide (NUM_OPEN_FILES ≤ openFilesCount s) then
        (Returned (- EMFILE), s)
      else
        (Returned 0, set_openFilesCount (CInt.to_uint (openFilesCount s + 1)) s)
  end.

(** [std::min(size, files[path].size - offset)]: the subtraction is done in
    [size_t], to which [offset] is converted. *)
Definition bytesToCopy (size fsize offset : Z) : Z :=
  Z.min size (CInt.to_size_t (fsize - offset)).

(** [buf] is an out-parameter of at least [size] bytes: the callback
    returns the bytes it stores at its start.  The test
    [files[path].size < (unsigned long)offset] only writes to the log; the
    copy follows it in either case. *)
Definition fuseRead (path : string) (size offset : Z) (s : MyInMemoryFS)
  : outcome * list byte * MyInMemoryFS :=
  match files s !! path with
  | None => (Returned (- ENOENT), [], s)
  | Some f =>
      if decide (MyFsFileInfo.size f = 0) then (Returned 0, [], s)
      else
        let n := bytesToCopy size (MyFsFileInfo.size f) offset in
        match load (MyFsFileInfo.data f) offset n with    (* memmove *)
        | Some bytes => (Returned (CInt.to_int n), bytes, s)
        | None => (Undefined_behaviour, [], s)
        end
  end.

(** [buf] is the caller's buffer, of which [size] bytes are written. *)
Definition fuseWrite (h : host) (path : string) (buf : list byte) (size offset : Z)
           (s : MyInMemoryFS) : outcome * MyInMemoryFS :=
  match files s !! path with
  | None => (Returned (- ENOENT), s)
  | Some f =>
      let f :=
        if decide (MyFsFileInfo.size f < CInt.to_size_t (offset + size)) then
          MyFsFileInfo.set_size (CInt.to_size_t (offset + size))
            (MyFsFileInfo.set_data
               (realloc (fresh h) (MyFsFileInfo.data f) (CInt.to_size_t (offset + size)))
               f)
        else f in
      match load buf 0 size ≫= store (MyFsFileInfo.data f) offset with  (* memmove *)
      | Some d =>
          (Returned (CInt.to_int size),
           set_files (<[path := MyFsFileInfo.set_data d f]> (files s)) s)
      | None => (Undefined_behaviour, set_files (<[path := f]> (files s)) s)
      end
  end.

Definition fuseRelease (path : string) (s : MyInMemoryFS) : outcome * MyInMemoryFS :=
  match files s !! path with
  | None => (Returned (- ENOENT), s)
  | Some _ =>
      if decide (openFilesCount s = 0) then
        (Returned (- ENOENT), s)
      else
        (Returned 0, set_openFilesCount (CInt.to_uint (openFilesCount s - 1)) s)
  end.

Definition fuseTruncate (h : host) (path : string) (newSize : Z) (s : MyInMemoryFS)
  : outcome * MyInMemoryFS :=
  match files s !! path with
  | None => (Returned (- ENOENT), s)
  | Some f =>
      let f := MyFsFileInfo.set_data
                 (realloc (fresh h) (MyFsFileInfo.data f) (CInt.to_size_t newSize)) f in
      let f := MyFsFileInfo.set_size (CInt.to_size_t newSize) f in
      (Returned 0, set_files (<[path := f]> (files s)) s)
  end.

(** The overload for open files, [fuseTruncate(path, newSize, fileInfo)]:
    the same statements. *)
Definition fuseTruncate_open (h : host) (path : string) (newSize : Z) (s : MyInMemoryFS)
  : outcome * MyInMemoryFS :=
  match files s !! path with
  | None => (Returned (- ENOENT), s)
  | Some f =>
      let f := MyFsFileInfo.set_data
                 (realloc (fresh h) (MyFsFileInfo.data f) (CInt.to_size_t newSize)) f in
      let f := MyFsFileInfo.set_size (CInt.to_size_t newSize) f in
      (Returned 0, set_files (<[path := f]> (files s)) s)
  end.

(** The names handed to [filler], in the order of the calls. *)
Definition fuseReaddir (path : string) (s : MyInMemoryFS)
  : outcome * list string * MyInMemoryFS :=
  (Returned 0,
   "." :: ".." ::
     (if decide (path = "/")
      then (λ it, MyFsFileInfo.name it.2) <$> map_to_list (files s)
      else []),
   s).

Definition fuseInit (s : MyInMemoryFS) : outcome * MyInMemoryFS :=
  (Returned 0, set_openFilesCount 0 s).

Definition fuseDestroy (s : MyInMemoryFS) : MyInMemoryFS := s.

(** *** Calls and runs *)

Inductive call : Type :=
| Mknod (path : string) (mode : Z)
| Unlink (path : string)
| Rename (path newpath : string)
| Getattr (path : string) (statbuf : stat)
| Chmod (path : string) (mode : Z)
| Chown (path : string) (uid gid : Z)
| Open (path : string)
| Read (path : string) (size offset : Z)
| Write (path : string) (buf : list byte) (size offset : Z)
| Release (path : string)
| Truncate (path : string) (newSize : Z)
| Truncate_open (path : string) (newSize : Z)
| Readdir (path : string)
| Init
| Destroy.

(** The return of a call and the state it leaves. *)
Definition run (h : host) (c : call) (s : MyInMemoryFS) : outcome * MyInMemoryFS :=
  match c with
  | Mknod path mode => fuseMknod h path mode s
  | Unlink path => fuseUnlink path s
  | Rename path newpath => fuseRename path newpath s
  | Getattr path statbuf => let '(r, _, s') := fuseGetattr h path statbuf s in (r, s')
  | Chmod path mode => fuseChmod path mode s
  | Chown path uid gid => fuseChown path uid gid s
  | Open path => fuseOpen path s
  | Read path size offset => let '(r, _, s') := fuseRead path size offset s in (r, s')
  | Write path buf size offset => fuseWrite h path buf size offset s
  | Release path => fuseRelease path s
  | Truncate path newSize => fuseTruncate h path newSize s
  | Truncate_open path newSize => fuseTruncate_open h path newSize s
  | Readdir path => let '(r, _, s') := fuseReaddir path s in (r, s')
  | Init => fuseInit s
  | Destroy => (Returned 0, fuseDestroy s)
  end.

(** The states the object goes through: a call that runs into undefined
    behaviour ends the run. *)
Inductive reachable : MyInMemoryFS → Prop :=
| reachable_initial : reachable initial
| reachable_run h c s r s' :
    reachable s → run h c s = (r, s') → r ≠ Undefined_behaviour → reachable s'.

(** A call fails when it returns a negative [int]. *)
Definition returns_error (r : outcome) : Prop :=
  match r with
  | Returned ret => ret < 0
  | _ => False
  end.

End Callbacks.

(** ** Invariants of the file store *)

(** Every record's buffer is as long as its [size] says. *)
Definition buffers_well_formed (s : MyInMemoryFS) : Prop :=
  map_Forall (λ _ f, MyFsFileInfo.well_formed f) (files s).

Definition within_capacity (NUM_DIR_ENTRIES : Z) (s : MyInMemoryFS) : Prop :=
  Z.of_nat (size (files s)) ≤ NUM_DIR_ENTRIES.

Definition counter_in_range (NUM_OPEN_FILES : Z) (s : MyInMemoryFS) : Prop :=
  0 ≤ openFilesCount s ≤ NUM_OPEN_FILES.

(** The byte count of a write is a [size_t] that the [int] it returns can
    hold, as it is for every request the kernel interface hands over. *)
Definition byte_count_fits_int (c : call) : Prop :=
  match c with
  | Write _ _ size _ => 0 ≤ size ≤ CInt.INT_MAX
  | _ => True
  end.

(** Every record carries, as its [name], its key without the leading "/". *)
Definition names_match_keys (s : MyInMemoryFS) : Prop :=
  map_Forall (λ k f, MyFsFileInfo.name f = path_plus_1 k) (files s).

(** The state after a sequence of calls, issued one after the other. *)
Fixpoint run_calls (NAME_LENGTH NUM_DIR_ENTRIES NUM_OPEN_FILES : Z) (h : host)
    (cs : list call) (s : MyInMemoryFS) : MyInMemoryFS :=
  match cs with
  | [] => s
  | c :: cs =>
      run_calls NAME_LENGTH NUM_DIR_ENTRIES NUM_OPEN_FILES h cs
        (run NAME_LENGTH NUM_DIR_ENTRIES NUM_OPEN_FILES h c s).2
  end.

(** The path "/xx...x" with [n] letters after the slash. *)
Definition path_of_length (n : nat) : string :=
  String "/"%char (Nat.iter n (String "x"%char) EmptyString).

(** The bytes the allocator leaves between the old end [len] of a buffer and
    a later position [off]. *)
Definition gap_bytes (h : host) (len : nat) (off : Z) : list byte :=
  fresh h <$> seq len (Z.to_nat off - len).

(** ** Statements that are compared with the callbacks *)

(** The permission bits of a mode. *)
Definition permission_bits (mode : Z) : Z := Z.land mode (octal [7; 7; 7; 7]).

(** "create then stat reports size 0 and the requested permissions". *)
Definition stat_reports_requested_permissions
    (NAME_LENGTH NUM_DIR_ENTRIES : Z) (h : host) (path : string) (mode : Z)
    (statbuf : stat) (s : MyInMemoryFS) : Prop :=
  let '(r, s') := fuseMknod NAME_LENGTH NUM_DIR_ENTRIES h path mode s in
  r = Returned 0 →
  let '(r', statbuf', _) := fuseGetattr h path statbuf s' in
  r' = Returned 0 ∧ st_size statbuf' = 0 ∧
  permission_bits (st_mode statbuf') = permission_bits mode.

(** "close with the counter at 0 fails with an error kind distinct from the
    one returned for an absent file". *)
Definition release_underflow_distinct_from_absent
    (path absent : string) (s : MyInMemoryFS) : Prop :=
  is_Some (files s !! path) → openFilesCount s = 0 → files s !! absent = None →
  returns_error (fuseRelease path s).1 ∧
  (fuseRelease path s).1 ≠ (fuseRelease absent s).1.

(** The bound on a read that the specification asks for:
    [min(requestedSize, storedSize − offset)], not below 0. *)
Definition clamped_read_length (size fsize offset : Z) : Z :=
  Z.max 0 (Z.min size (fsize - offset)).

(** ** A small scenario *)

Module Scenario.
Definition h0 : host := mkHost 1000 1000 0 (λ _, x00).
Definition statbuf0 : stat := mkStat 0 0 0 0 0 0 0.
Definition hello : list byte := [x68; x65; x6c; x6c; x6f].
Definition mode644 : Z := Z.lor S_IFREG (octal [6; 4; 4]).
Definition mode600 : Z := Z.lor S_IFREG (octal [6; 0; 0]).

(** The record of "/a.txt" when created and when it holds "hello". *)
Definition a_empty : MyFsFileInfo.t := new_MyFsFileInfo h0 "/a.txt" mode644.
Definition a_hello : MyFsFileInfo.t :=
  MyFsFileInfo.mk "a.txt" mode644 0 0 5 hello 0 0 0.

(** One file "/a.txt", empty. *)
Definition created : MyInMemoryFS :=
  (fuseMknod 255 64 h0 "/a.txt" mode644 initial).2.
(** "/a.txt" holds "hello". *)
Definition written : MyInMemoryFS :=
  (fuseWrite h0 "/a.txt" hello 5 0 created).2.
(** "/a.txt" holds "hello", "/b.txt" is empty. *)
Definition two_files : MyInMemoryFS :=
  (fuseMknod 255 64 h0 "/b.txt" mode644 written).2.
End Scenario.

(** * Properties *)

(** ** Integer conversions *)

Lemma to_size_t_range z : 0 ≤ CInt.to_size_t z ≤ CInt.SIZE_MAX.
Proof.
  unfold CInt.to_size_t, CInt.wrap_unsigned, CInt.SIZE_MAX.
  pose proof (Z.mod_pos_bound z (2 ^ 64)). lia.
Qed.

Lemma to_size_t_id z : 0 ≤ z ≤ CInt.SIZE_MAX → CInt.to_size_t z = z.
Proof.
  unfold CInt.to_size_t, CInt.wrap_unsigned, CInt.SIZE_MAX.
  intros. apply Z.mod_small. lia.
Qed.

Lemma to_uint_range z : 0 ≤ CInt.to_uint z ≤ CInt.UINT_MAX.
Proof.
  unfold CInt.to_uint, CInt.wrap_unsigned, CInt.UINT_MAX.
  pose proof (Z.mod_pos_bound z (2 ^ 32)). lia.
Qed.

Lemma to_uint_id z : 0 ≤ z ≤ CInt.UINT_MAX → CInt.to_uint z = z.
Proof.
  unfold CInt.to_uint, CInt.wrap_unsigned, CInt.UINT_MAX.
  intros. apply Z.mod_small. lia.
Qed.

Lemma to_off_t_id z : 0 ≤ z ≤ CInt.OFF_MAX → CInt.to_off_t z = z.
Proof.
  unfold CInt.to_off_t, CInt.wrap_signed, CInt.OFF_MAX.
  intros. rewrite Z.mod_small; lia.
Qed.

Lemma to_int_id z : 0 ≤ z ≤ CInt.INT_MAX → CInt.to_int z = z.
Proof.
  unfold CInt.to_int, CInt.wrap_signed, CInt.INT_MAX.
  intros. rewrite Z.mod_small; lia.
Qed.

(** ** Heap buffers *)

Lemma length_realloc fresh p n : length (realloc fresh p n) = Z.to_nat n.
Proof.
  unfold realloc. rewrite length_app, length_take, length_fmap, length_seq. lia.
Qed.

(** [realloc] keeps the bytes that fit. *)
Lemma realloc_take fresh p n k :
  (k ≤ length p)%nat → (k ≤ Z.to_nat n)%nat →
  take k (realloc fresh p n) = take k p.
Proof.
  intros Hp Hn. unfold realloc.
  rewrite take_app_le by (rewrite length_take; lia).
  rewrite take_take. f_equal. lia.
Qed.

Lemma load_length p off n bytes :
  0 ≤ n → load p off n = Some bytes → Z.of_nat (length bytes) = n.
Proof.
  unfold load. intros Hn H. repeat case_decide; simplify_eq; simpl; [lia|].
  rewrite length_take, length_drop. lia.
Qed.

(** Reading a whole buffer from its start. *)
Lemma load_all (buf : list byte) : load buf 0 (Z.of_nat (length buf)) = Some buf.
Proof.
  unfold load. case_decide as H0.
  - destruct buf; [done | simpl in H0; lia].
  - rewrite decide_True by lia.
    simpl. rewrite drop_0, Nat2Z.id, firstn_all. done.
Qed.

Lemma store_length p off src d :
  store p off src = Some d → length d = length p.
Proof.
  unfold store. intros H. repeat case_decide; simplify_eq; [done|].
  rewrite !length_app, length_take, length_drop. lia.
Qed.

(** What [store] writes is what [load] reads back. *)
Lemma load_store p off src d :
  store p off src = Some d → load d off (Z.of_nat (length src)) = Some src.
Proof.
  unfold store, load. intros H.
  case_decide as Hsrc.
  - subst src. done.
  - rewrite decide_False by (destruct src; [done | simpl; lia]).
    case_decide as Hin; [|done]. simplify_eq.
    rewrite decide_True.
    2:{ rewrite !length_app, length_take, length_drop. lia. }
    f_equal. rewrite Nat2Z.id.
    rewrite drop_app_length' by (rewrite length_take; lia).
    apply take_app_length.
Qed.

(** [store] leaves the bytes before and after the destination range. *)
Lemma store_frame p off src d :
  0 ≤ off → off + Z.of_nat (length src) ≤ Z.of_nat (length p) →
  store p off src = Some d →
  d = take (Z.to_nat off) p ++ src ++ drop (Z.to_nat off + length src) p.
Proof.
  unfold store. intros H0 Hle H.
  case_decide as Hsrc.
  - simplify_eq. simpl. rewrite Nat.add_0_r. by rewrite take_drop.
  - rewrite decide_True in H by lia. by simplify_eq.
Qed.

Lemma store_in_bounds p off src :
  0 ≤ off → off + Z.of_nat (length src) ≤ Z.of_nat (length p) →
  is_Some (store p off src).
Proof.
  unfold store. intros. case_decide; [eauto|]. rewrite decide_True by lia. eauto.
Qed.

(** ** Invariants along every run *)

(** Splits a callback into the paths through it. *)
Ltac callback_paths H :=
  repeat (first [ case_decide | case_match ]; simplify_eq/=); simplify_eq/=.

Section Invariants.

Variables NAME_LENGTH NUM_DIR_ENTRIES NUM_OPEN_FILES : Z.

Abbreviation run := (run NAME_LENGTH NUM_DIR_ENTRIES NUM_OPEN_FILES).
Abbreviation reachable := (reachable NAME_LENGTH NUM_DIR_ENTRIES NUM_OPEN_FILES).

Lemma size_delete_le (k : string) (m : gmap string MyFsFileInfo.t) :
  (size (delete k m) ≤ size m)%nat.
Proof.
  rewrite map_size_delete. destruct (m !! k); simpl; unfold id; lia.
Qed.

(** Moving a record to a new key does not add an entry. *)
Lemma size_rename_le (m : gmap string MyFsFileInfo.t) path newpath f g :
  m !! path = Some f →
  (size (delete path (<[newpath := g]> m)) ≤ size m)%nat.
Proof.
  intros Hp.
  destruct (decide (path = newpath)) as [->|Hne].
  - rewrite delete_insert_eq.
    pose proof (map_size_delete newpath m) as Hd. rewrite Hp in Hd. simpl in Hd.
    rewrite Hd. apply Nat.le_pred_l.
  - rewrite map_size_delete_Some by (rewrite lookup_insert_ne by done; eauto).
    pose proof (map_size_insert newpath g m) as Hi.
    destruct (m !! newpath); simpl in Hi; unfold id in Hi; lia.
Qed.

Lemma run_within_capacity h c s r s' :
  within_capacity NUM_DIR_ENTRIES s → run h c s = (r, s') →
  within_capacity NUM_DIR_ENTRIES s'.
Proof.
  unfold within_capacity. intros Hs Hrun.
  destruct c; simpl in Hrun;
    unfold fuseMknod, fuseUnlink, fuseRename, strcpy_name, fuseGetattr, fuseChmod, fuseChown,
      fuseOpen, fuseRead, fuseWrite, fuseRelease, fuseTruncate, fuseTruncate_open,
      fuseReaddir, fuseInit, fuseDestroy, erase in Hrun;
    callback_paths Hrun; try done.
  all: try (rewrite map_size_insert_Some by eauto; done).
  all: try (etrans; [|exact Hs]; apply inj_le;
            first [ apply size_delete_le
                  | by eapply size_rename_le
                  | etrans; [by eapply size_rename_le | apply size_delete_le] ]).
  rewrite map_size_insert_None by (by apply eq_None_not_Some). lia.
Qed.

Lemma run_counter_in_range h c s r s' :
  0 ≤ NUM_OPEN_FILES ≤ CInt.UINT_MAX →
  counter_in_range NUM_OPEN_FILES s → run h c s = (r, s') →
  counter_in_range NUM_OPEN_FILES s'.
Proof.
  unfold counter_in_range. intros HN Hs Hrun.
  destruct c; simpl in Hrun;
    unfold fuseMknod, fuseUnlink, fuseRename, strcpy_name, fuseGetattr, fuseChmod, fuseChown,
      fuseOpen, fuseRead, fuseWrite, fuseRelease, fuseTruncate, fuseTruncate_open,
      fuseReaddir, fuseInit, fuseDestroy, erase in Hrun;
    callback_paths Hrun; try done; try lia.
  - rewrite to_uint_id by lia. lia.
  - rewrite to_uint_id by lia. lia.
Qed.

Lemma well_formed_realloc fresh f n :
  MyFsFileInfo.well_formed
    (MyFsFileInfo.set_size (CInt.to_size_t n)
       (MyFsFileInfo.set_data
          (realloc fresh (MyFsFileInfo.data f) (CInt.to_size_t n)) f)).
Proof.
  unfold MyFsFileInfo.well_formed. simpl. rewrite length_realloc.
  pose proof (to_size_t_range n). lia.
Qed.

Lemma well_formed_new h path mode :
  MyFsFileInfo.well_formed (new_MyFsFileInfo h path mode).
Proof. unfold MyFsFileInfo.well_formed. simpl. by vm_compute. Qed.

Lemma well_formed_store f off src d :
  MyFsFileInfo.well_formed f → store (MyFsFileInfo.data f) off src = Some d →
  MyFsFileInfo.well_formed (MyFsFileInfo.set_data d f).
Proof.
  unfold MyFsFileInfo.well_formed. simpl. intros Hf Hd.
  by rewrite (store_length _ _ _ _ Hd).
Qed.

Lemma well_formed_lookup (m : gmap string MyFsFileInfo.t) k f :
  map_Forall (λ _ f, MyFsFileInfo.well_formed f) m → m !! k = Some f →
  Z.of_nat (length (MyFsFileInfo.data f)) = MyFsFileInfo.size f ∧
  MyFsFileInfo.size f ≤ CInt.SIZE_MAX.
Proof. intros Hm Hk. exact (map_Forall_lookup_1 _ _ _ _ Hm Hk). Qed.

Lemma fuseWrite_buffers_well_formed h path buf size offset s r s' :
  buffers_well_formed s → fuseWrite h path buf size offset s = (r, s') →
  buffers_well_formed s'.
Proof.
  unfold buffers_well_formed, fuseWrite. intros Hs Hrun.
  destruct (files s !! path) as [f|] eqn:Hf; [|by simplify_eq].
  pose proof (well_formed_lookup _ _ _ Hs Hf) as Hwf.
  set (f' := if decide (MyFsFileInfo.size f < CInt.to_size_t (offset + size))
             then _ else f) in Hrun.
  assert (MyFsFileInfo.well_formed f') as Hwf'.
  { subst f'. case_decide; [apply well_formed_realloc | exact Hwf]. }
  destruct (load buf 0 size ≫= store (MyFsFileInfo.data f') offset) as [d|] eqn:Hd;
    simplify_eq; simpl; apply map_Forall_insert_2; try done.
  destruct (load buf 0 size) as [bytes|]; simpl in Hd; [|done].
  by eapply well_formed_store.
Qed.

Lemma run_buffers_well_formed h c s r s' :
  buffers_well_formed s → run h c s = (r, s') → buffers_well_formed s'.
Proof.
  intros Hs Hrun.
  destruct c; simpl in Hrun; try (by eapply fuseWrite_buffers_well_formed).
  all: unfold buffers_well_formed in *;
    unfold fuseMknod, fuseUnlink, fuseRename, strcpy_name, fuseGetattr, fuseChmod, fuseChown,
      fuseOpen, fuseRead, fuseRelease, fuseTruncate, fuseTruncate_open,
      fuseReaddir, fuseInit, fuseDestroy, erase in Hrun;
    callback_paths Hrun; try done;
    repeat first [ apply map_Forall_delete | apply map_Forall_insert_2 | assumption ];
    try apply well_formed_realloc; try apply well_formed_new;
    repeat match goal with
      | Hl : delete _ _ !! _ = Some _ |- _ => apply lookup_delete_Some in Hl as [_ Hl]
      | Hl : files _ !! _ = Some ?t |- _ =>
          lazymatch goal with
          | _ : Z.of_nat (length (MyFsFileInfo.data t)) = _ ∧ _ |- _ => fail
          | _ => pose proof (well_formed_lookup _ _ _ Hs Hl)
          end
      end;
    done.
Qed.

End Invariants.

Section Reachable.

Variables NAME_LENGTH NUM_DIR_ENTRIES NUM_OPEN_FILES : Z.

Abbreviation reachable_state := (reachable NAME_LENGTH NUM_DIR_ENTRIES NUM_OPEN_FILES).

Lemma reachable_within_capacity s :
  0 ≤ NUM_DIR_ENTRIES → reachable_state s → within_capacity NUM_DIR_ENTRIES s.
Proof.
  intros HN. induction 1 as [|h c s r s' _ IH Hrun _].
  - unfold within_capacity. simpl. rewrite map_size_empty. lia.
  - by eapply run_within_capacity.
Qed.

Lemma reachable_counter_in_range s :
  0 ≤ NUM_OPEN_FILES ≤ CInt.UINT_MAX → reachable_state s →
  counter_in_range NUM_OPEN_FILES s.
Proof.
  intros HN. induction 1 as [|h c s r s' _ IH Hrun _].
  - unfold counter_in_range. simpl. lia.
  - by eapply run_counter_in_range.
Qed.

Lemma reachable_buffers_well_formed s :
  reachable_state s → buffers_well_formed s.
Proof.
  induction 1 as [|h c s r s' _ IH Hrun _].
  - apply map_Forall_empty.
  - by eapply run_buffers_well_formed.
Qed.

End Reachable.

(** ** Capacity of the store *)

(** C3. In every reachable state the table holds at most [NUM_DIR_ENTRIES]
    entries, and no call (a rename over an existing destination included)
    leaves more than that.  When it holds exactly [NUM_DIR_ENTRIES] entries,
    every [fuseMknod] fails and returns the state as it was; for a new name of
    admissible length the error is [-ENOSPC]. *)
Theorem store_never_exceeds_capacity
    (NAME_LENGTH NUM_DIR_ENTRIES NUM_OPEN_FILES : Z) (s : MyInMemoryFS)
    (h : host) (path : string) (mode : Z) :
  0 ≤ NUM_DIR_ENTRIES →
  reachable NAME_LENGTH NUM_DIR_ENTRIES NUM_OPEN_FILES s →
  Z.of_nat (size (files s)) ≤ NUM_DIR_ENTRIES ∧
  (∀ h' c r s', run NAME_LENGTH NUM_DIR_ENTRIES NUM_OPEN_FILES h' c s = (r, s') →
                Z.of_nat (size (files s')) ≤ NUM_DIR_ENTRIES) ∧
  (Z.of_nat (size (files s)) = NUM_DIR_ENTRIES →
   (∃ e, 0 < e ∧
         fuseMknod NAME_LENGTH NUM_DIR_ENTRIES h path mode s = (Returned (- e), s)) ∧
   (strlen (path_plus_1 path) ≤ NAME_LENGTH → files s !! path = None →
    fuseMknod NAME_LENGTH NUM_DIR_ENTRIES h path mode s
    = (Returned (- Errno.ENOSPC), s))).
Proof.
  intros HN Hs.
  pose proof (reachable_within_capacity _ _ _ _ HN Hs) as Hcap.
  split; [exact Hcap|]. split.
  - intros h' c r s' Hrun. by eapply run_within_capacity.
  - intros Hfull. unfold fuseMknod. split.
    + repeat case_decide; try lia.
      * exists Errno.ENAMETOOLONG. done.
      * exists Errno.EEXIST. done.
      * exists Errno.ENOSPC. done.
    + intros Hlen Hnew.
      rewrite decide_False by lia.
      rewrite decide_False by (rewrite Hnew; by apply is_Some_None).
      rewrite decide_True by lia. done.
Qed.

Lemma store_never_exceeds_capacity_witness :
  Z.of_nat (size (files Scenario.created)) ≤ 1 ∧
  fuseMknod 255 1 Scenario.h0 "/b.txt" Scenario.mode644 Scenario.created
  = (Returned (- Errno.ENOSPC), Scenario.created).
Proof.
  assert (reachable 255 1 64 Scenario.created) as Hreach.
  { apply (reachable_run 255 1 64 Scenario.h0 (Mknod "/a.txt" Scenario.mode644)
             initial (Returned 0) Scenario.created).
    - apply reachable_initial.
    - vm_compute. reflexivity.
    - discriminate. }
  assert (0 ≤ 1) as H01 by lia.
  destruct (store_never_exceeds_capacity 255 1 64 Scenario.created Scenario.h0
              "/b.txt" Scenario.mode644 H01 Hreach) as (Hle & _ & Hfull).
  split; [exact Hle|].
  apply Hfull.
  - vm_compute. reflexivity.
  - vm_compute. discriminate.
  - vm_compute. reflexivity.
Defined.

(** ** The open-file counter *)

(** C4. In every reachable state [0 ≤ openFilesCount ≤ NUM_OPEN_FILES], and
    no call leaves it outside that range.  On an existing file [fuseOpen]
    adds one unless the counter is at [NUM_OPEN_FILES], where it fails with
    [-EMFILE] and changes nothing; [fuseRelease] takes one off unless the
    counter is 0, where it fails and changes nothing. *)
Theorem open_counter_stays_in_range
    (NAME_LENGTH NUM_DIR_ENTRIES NUM_OPEN_FILES : Z) (s : MyInMemoryFS)
    (path : string) :
  0 ≤ NUM_OPEN_FILES ≤ CInt.UINT_MAX →
  reachable NAME_LENGTH NUM_DIR_ENTRIES NUM_OPEN_FILES s →
  0 ≤ openFilesCount s ≤ NUM_OPEN_FILES ∧
  (∀ h c r s', run NAME_LENGTH NUM_DIR_ENTRIES NUM_OPEN_FILES h c s = (r, s') →
               0 ≤ openFilesCount s' ≤ NUM_OPEN_FILES) ∧
  (is_Some (files s !! path) →
   fuseOpen NUM_OPEN_FILES path s
   = (if decide (openFilesCount s = NUM_OPEN_FILES)
      then (Returned (- Errno.EMFILE), s)
      else (Returned 0, set_openFilesCount (openFilesCount s + 1) s)) ∧
   fuseRelease path s
   = (if decide (openFilesCount s = 0)
      then (Returned (- Errno.ENOENT), s)
      else (Returned 0, set_openFilesCount (openFilesCount s - 1) s))).
Proof.
  intros HN Hs.
  pose proof (reachable_counter_in_range _ _ _ _ HN Hs) as Hc.
  unfold counter_in_range in Hc.
  split; [exact Hc|]. split.
  - intros h c r s' Hrun.
    by eapply (run_counter_in_range NAME_LENGTH NUM_DIR_ENTRIES NUM_OPEN_FILES).
  - intros [f Hf]. unfold fuseOpen, fuseRelease. rewrite Hf. split.
    + destruct (decide (openFilesCount s = NUM_OPEN_FILES)) as [Heq|Hne].
      * rewrite decide_True by lia. done.
      * rewrite decide_False by lia. rewrite to_uint_id by lia. done.
    + case_decide; [done|]. rewrite to_uint_id by lia. done.
Qed.

Lemma open_counter_stays_in_range_witness :
  0 ≤ openFilesCount Scenario.created ≤ 64 ∧
  fuseOpen 64 "/a.txt" Scenario.created
  = (Returned 0, set_openFilesCount 1 Scenario.created) ∧
  fuseRelease "/a.txt" Scenario.created
  = (Returned (- Errno.ENOENT), Scenario.created).
Proof.
  assert (reachable 255 64 64 Scenario.created) as Hreach.
  { apply (reachable_run 255 64 64 Scenario.h0 (Mknod "/a.txt" Scenario.mode644)
             initial (Returned 0) Scenario.created).
    - apply reachable_initial.
    - vm_compute. reflexivity.
    - discriminate. }
  assert (0 ≤ 64 ≤ CInt.UINT_MAX) as HN by (vm_compute; split; discriminate).
  destruct (open_counter_stays_in_range 255 64 64 Scenario.created "/a.txt"
              HN Hreach) as (Hrange & _ & Hcalls).
  split; [exact Hrange|].
  assert (is_Some (files Scenario.created !! "/a.txt")) as Hex
      by (vm_compute; eauto).
  destruct (Hcalls Hex) as [Hopen Hrelease].
  split; [exact Hopen | exact Hrelease].
Defined.

(** Against C7 as stated: the error of a close at counter 0 is the error of a
    close of an absent file; that the two are distinct fails on "/a.txt"
    (present, never opened) and "/b.txt" (absent). *)
Lemma release_underflow_same_as_absent :
  ¬ release_underflow_distinct_from_absent "/a.txt" "/b.txt" Scenario.created.
Proof.
  unfold release_underflow_distinct_from_absent. intros Hclaim.
  destruct Hclaim as [_ Hne].
  - vm_compute. eauto.
  - reflexivity.
  - reflexivity.
  - apply Hne. vm_compute. reflexivity.
Qed.

(** C7, as the callback has it.  [fuseRelease] of an existing file with the
    counter at 0 fails with [-ENOENT] and changes nothing; that is the very
    return of [fuseRelease] of an absent file. *)
Theorem fuseRelease_underflow_is_ENOENT (s : MyInMemoryFS) (path absent : string) :
  is_Some (files s !! path) → openFilesCount s = 0 → files s !! absent = None →
  fuseRelease path s = (Returned (- Errno.ENOENT), s) ∧
  fuseRelease absent s = (Returned (- Errno.ENOENT), s) ∧
  returns_error (fuseRelease path s).1.
Proof.
  intros [f Hf] Hc Habs. unfold fuseRelease. rewrite Hf, Habs.
  rewrite decide_True by done. repeat split.
Qed.

Lemma fuseRelease_underflow_is_ENOENT_witness :
  fuseRelease "/a.txt" Scenario.created = (Returned (- Errno.ENOENT), Scenario.created) ∧
  fuseRelease "/b.txt" Scenario.created = (Returned (- Errno.ENOENT), Scenario.created) ∧
  returns_error (fuseRelease "/a.txt" Scenario.created).1.
Proof.
  apply (fuseRelease_underflow_is_ENOENT Scenario.created "/a.txt" "/b.txt").
  - vm_compute. eauto.
  - reflexivity.
  - reflexivity.
Defined.

(** ** Attributes after create and truncate *)

(** Against C5 as stated: after a create with mode 0600, [fuseGetattr]
    reports the permission bits 0644, not the requested ones. *)
Lemma stat_ignores_requested_permissions :
  ¬ stat_reports_requested_permissions 255 64 Scenario.h0 "/a.txt"
      Scenario.mode600 Scenario.statbuf0 initial.
Proof.
  unfold stat_reports_requested_permissions. vm_compute.
  intros H. destruct (H eq_refl) as (_ & _ & Hbits). discriminate Hbits.
Qed.

(** C5, as the callbacks have it.  For a new name of admissible length other
    than the root path, in a table with room, [fuseMknod] succeeds and stores
    the requested mode in the record; [fuseGetattr] then reports size 0, one
    link and the fixed mode [S_IFREG | 0644], whatever mode was requested. *)
Theorem create_then_stat
    (NAME_LENGTH NUM_DIR_ENTRIES : Z) (h h' : host) (path : string) (mode : Z)
    (statbuf : stat) (s : MyInMemoryFS) :
  path ≠ "/" →
  strlen (path_plus_1 path) ≤ NAME_LENGTH →
  files s !! path = None →
  Z.of_nat (size (files s)) < NUM_DIR_ENTRIES →
  ∃ s' statbuf',
    fuseMknod NAME_LENGTH NUM_DIR_ENTRIES h path mode s = (Returned 0, s') ∧
    MyFsFileInfo.permissions <$> files s' !! path = Some mode ∧
    fuseGetattr h' path statbuf s' = (Returned 0, statbuf', s') ∧
    st_size statbuf' = 0 ∧
    st_nlink statbuf' = 1 ∧
    st_mode statbuf' = Z.lor S_IFREG (octal [6; 4; 4]).
Proof.
  intros Hroot Hlen Hnew Hroom.
  unfold fuseMknod, fuseGetattr.
  rewrite decide_False by lia.
  rewrite decide_False by (rewrite Hnew; by apply is_Some_None).
  rewrite decide_False by lia.
  eexists _, _. split; [reflexivity|]. simpl.
  rewrite lookup_insert_eq. split; [done|].
  rewrite decide_False by done. split; [reflexivity|]. done.
Qed.

Lemma create_then_stat_witness :
  ∃ s' statbuf',
    fuseMknod 255 64 Scenario.h0 "/a.txt" Scenario.mode600 initial = (Returned 0, s') ∧
    MyFsFileInfo.permissions <$> files s' !! "/a.txt" = Some Scenario.mode600 ∧
    fuseGetattr Scenario.h0 "/a.txt" Scenario.statbuf0 s' = (Returned 0, statbuf', s') ∧
    st_size statbuf' = 0 ∧
    st_nlink statbuf' = 1 ∧
    st_mode statbuf' = Z.lor S_IFREG (octal [6; 4; 4]).
Proof.
  apply (create_then_stat 255 64 Scenario.h0 Scenario.h0 "/a.txt" Scenario.mode600
           Scenario.statbuf0 initial).
  - discriminate.
  - vm_compute. discriminate.
  - reflexivity.
  - vm_compute. reflexivity.
Defined.

(** The overload of [fuseTruncate] for open files does what the other does. *)
Lemma fuseTruncate_open_eq h path newSize s :
  fuseTruncate_open h path newSize s = fuseTruncate h path newSize s.
Proof. reflexivity. Qed.

(** C8. For a file in the table (other than under the root path) and every
    [k] from 0 to the largest [off_t], [fuseTruncate] succeeds, the record's
    size is [k], its buffer is [k] bytes long, and [fuseGetattr] then reports
    size [k]. *)
Theorem truncate_then_stat
    (h h' : host) (path : string) (k : Z) (statbuf : stat) (s : MyInMemoryFS) :
  is_Some (files s !! path) →
  path ≠ "/" →
  0 ≤ k ≤ CInt.OFF_MAX →
  ∃ s' f' statbuf',
    fuseTruncate h path k s = (Returned 0, s') ∧
    files s' !! path = Some f' ∧
    MyFsFileInfo.size f' = k ∧
    Z.of_nat (length (MyFsFileInfo.data f')) = k ∧
    fuseGetattr h' path statbuf s' = (Returned 0, statbuf', s') ∧
    st_size statbuf' = k.
Proof.
  intros [f Hf] Hroot Hk.
  assert (CInt.to_size_t k = k) as Hsz.
  { apply to_size_t_id. unfold CInt.OFF_MAX, CInt.SIZE_MAX in *. lia. }
  unfold fuseTruncate, fuseGetattr. rewrite Hf.
  eexists _, _, _. split; [reflexivity|]. simpl.
  rewrite lookup_insert_eq. split; [reflexivity|]. simpl.
  rewrite decide_False by done.
  rewrite length_realloc, Hsz.
  split; [done|]. split; [lia|]. split; [reflexivity|]. simpl.
  by apply to_off_t_id.
Qed.

Lemma truncate_then_stat_witness :
  ∃ s' f' statbuf',
    fuseTruncate Scenario.h0 "/a.txt" 2 Scenario.written = (Returned 0, s') ∧
    files s' !! "/a.txt" = Some f' ∧
    MyFsFileInfo.size f' = 2 ∧
    Z.of_nat (length (MyFsFileInfo.data f')) = 2 ∧
    fuseGetattr Scenario.h0 "/a.txt" Scenario.statbuf0 s' = (Returned 0, statbuf', s') ∧
    st_size statbuf' = 2.
Proof.
  apply (truncate_then_stat Scenario.h0 Scenario.h0 "/a.txt" 2 Scenario.statbuf0
           Scenario.written).
  - vm_compute. eauto.
  - discriminate.
  - vm_compute. split; discriminate.
Defined.

(** ** Writing and reading *)

(** The record [fuseWrite] copies into: the one in the table, with its buffer
    grown when the write ends beyond it. *)
Lemma fuseWrite_grown_well_formed fresh f n :
  MyFsFileInfo.well_formed f →
  MyFsFileInfo.well_formed
    (if decide (MyFsFileInfo.size f < CInt.to_size_t n)
     then MyFsFileInfo.set_size (CInt.to_size_t n)
            (MyFsFileInfo.set_data
               (realloc fresh (MyFsFileInfo.data f) (CInt.to_size_t n)) f)
     else f).
Proof. intros Hf. case_decide; [apply well_formed_realloc | exact Hf]. Qed.

(** C2. For a well-formed record in the table, a buffer [buf] and an offset
    that is not negative: when [offset + length buf] is at most the size the
    write leaves, [fuseWrite] returns the byte count and [fuseRead] of as many
    bytes at the same offset returns exactly [buf]. *)
Theorem write_then_read
    (h : host) (path : string) (buf : list byte) (offset : Z)
    (s s' : MyInMemoryFS) (f f' : MyFsFileInfo.t) (r : outcome) :
  files s !! path = Some f →
  MyFsFileInfo.well_formed f →
  0 ≤ offset →
  fuseWrite h path buf (Z.of_nat (length buf)) offset s = (r, s') →
  files s' !! path = Some f' →
  offset + Z.of_nat (length buf) ≤ MyFsFileInfo.size f' →
  r = Returned (CInt.to_int (Z.of_nat (length buf))) ∧
  fuseRead path (Z.of_nat (length buf)) offset s'
  = (Returned (CInt.to_int (Z.of_nat (length buf))), buf, s').
Proof.
  intros Hf Hwf Hoff Hwrite Hf' Hfits.
  unfold fuseWrite in Hwrite. rewrite Hf in Hwrite.
  pose proof (fuseWrite_grown_well_formed (fresh h) f
                (offset + Z.of_nat (length buf)) Hwf) as Hwf1.
  set (f1 := if decide (MyFsFileInfo.size f < CInt.to_size_t _) then _ else f) in *.
  rewrite load_all in Hwrite. simpl in Hwrite.
  destruct Hwf1 as [Hlen1 Hmax1].
  destruct (store (MyFsFileInfo.data f1) offset buf) as [d|] eqn:Hstore.
  - simplify_eq. simpl in Hf'. rewrite lookup_insert_eq in Hf'. simplify_eq.
    simpl in Hfits. split; [done|].
    unfold fuseRead. simpl. rewrite lookup_insert_eq. simpl.
    case_decide as Hzero.
    + assert (buf = []) as -> by (destruct buf; [done | simpl in Hfits; lia]).
      done.
    + unfold bytesToCopy. rewrite to_size_t_id by lia.
      rewrite Z.min_l by lia.
      by rewrite (load_store _ _ _ _ Hstore).
  - injection Hwrite as <- <-. simpl in Hf'. rewrite lookup_insert_eq in Hf'.
    injection Hf' as <-.
    destruct (store_in_bounds (MyFsFileInfo.data f1) offset buf) as [d Hd]; [lia..|].
    congruence.
Qed.

Lemma write_then_read_witness :
  fuseWrite Scenario.h0 "/a.txt" Scenario.hello 5 0 Scenario.created
  = (Returned 5, Scenario.written) ∧
  fuseRead "/a.txt" 5 0 Scenario.written = (Returned 5, Scenario.hello, Scenario.written).
Proof.
  assert (files Scenario.created !! "/a.txt" = Some Scenario.a_empty) as Hf
      by (vm_compute; reflexivity).
  assert (fuseWrite Scenario.h0 "/a.txt" Scenario.hello
            (Z.of_nat (length Scenario.hello)) 0 Scenario.created
          = (Returned 5, Scenario.written)) as Hw by (vm_compute; reflexivity).
  assert (files Scenario.written !! "/a.txt" = Some Scenario.a_hello) as Hf'
      by (vm_compute; reflexivity).
  destruct (write_then_read Scenario.h0 "/a.txt" Scenario.hello 0
              Scenario.created Scenario.written Scenario.a_empty Scenario.a_hello
              (Returned 5) Hf) as [_ Hread].
  - vm_compute. split; [reflexivity | discriminate].
  - lia.
  - exact Hw.
  - exact Hf'.
  - vm_compute. discriminate.
  - split; [exact Hw | exact Hread].
Defined.

(** C10. For a well-formed record in the table and a write that ends inside
    it ([0 ≤ offset], [offset + length buf ≤ size]): the size and the length
    of the buffer stay, the bytes before [offset] and from
    [offset + length buf] on stay, the bytes in between are [buf]; every
    other record and the open-file counter stay. *)
Theorem write_inside_file_frame
    (h : host) (path : string) (buf : list byte) (offset : Z)
    (s : MyInMemoryFS) (f : MyFsFileInfo.t) :
  files s !! path = Some f →
  MyFsFileInfo.well_formed f →
  0 ≤ offset →
  offset + Z.of_nat (length buf) ≤ MyFsFileInfo.size f →
  ∃ s' d,
    fuseWrite h path buf (Z.of_nat (length buf)) offset s
    = (Returned (CInt.to_int (Z.of_nat (length buf))), s') ∧
    files s' !! path = Some (MyFsFileInfo.set_data d f) ∧
    MyFsFileInfo.size (MyFsFileInfo.set_data d f) = MyFsFileInfo.size f ∧
    length d = length (MyFsFileInfo.data f) ∧
    (∀ i : nat, Z.of_nat i < offset ∨ offset + Z.of_nat (length buf) ≤ Z.of_nat i →
                d !! i = MyFsFileInfo.data f !! i) ∧
    take (length buf) (drop (Z.to_nat offset) d) = buf ∧
    (∀ other, other ≠ path → files s' !! other = files s !! other) ∧
    openFilesCount s' = openFilesCount s.
Proof.
  intros Hf [Hlen Hmax] Hoff Hfits.
  unfold fuseWrite. rewrite Hf.
  rewrite decide_False by (rewrite to_size_t_id by lia; lia).
  rewrite load_all. simpl.
  destruct (store_in_bounds (MyFsFileInfo.data f) offset buf) as [d Hstore]; [lia..|].
  rewrite Hstore.
  assert (d = take (Z.to_nat offset) (MyFsFileInfo.data f) ++ buf
              ++ drop (Z.to_nat offset + length buf) (MyFsFileInfo.data f)) as Hd
      by (apply store_frame; [lia | lia | exact Hstore]).
  eexists _, d. split; [reflexivity|]. simpl.
  rewrite lookup_insert_eq. split; [done|]. split; [done|].
  split; [by eapply store_length|]. split; [|split; [|split; [|done]]].
  - intros i [Hbefore|Hafter]; subst d.
    + rewrite lookup_app_l by (rewrite length_take; lia).
      apply lookup_take_lt. lia.
    + rewrite app_assoc, lookup_app_r
        by (rewrite length_app, length_take; lia).
      rewrite lookup_drop. f_equal.
      rewrite length_app, length_take. lia.
    - subst d. rewrite drop_app_length' by (rewrite length_take; lia).
      apply take_app_length.
    - intros other Hne. by rewrite lookup_insert_ne.
Qed.

Lemma write_inside_file_frame_witness :
  ∃ s' d,
    fuseWrite Scenario.h0 "/a.txt" [x4a] 1 0 Scenario.written = (Returned 1, s') ∧
    files s' !! "/a.txt"
    = Some (MyFsFileInfo.mk "a.txt" Scenario.mode644 0 0 5 d 0 0 0) ∧
    d = [x4a; x65; x6c; x6c; x6f] ∧
    openFilesCount s' = openFilesCount Scenario.written.
Proof.
  assert (files Scenario.written !! "/a.txt" = Some Scenario.a_hello) as Hf
      by (vm_compute; reflexivity).
  destruct (write_inside_file_frame Scenario.h0 "/a.txt" [x4a] 0 Scenario.written
              Scenario.a_hello Hf)
    as (s' & d & Hw & Hl & _ & Hlen & Hout & Hin & _ & Hc).
  - vm_compute. split; [reflexivity | discriminate].
  - lia.
  - vm_compute. discriminate.
  - exists s', d. split; [exact Hw|]. split; [exact Hl|]. split; [|exact Hc].
    simpl in Hlen, Hin.
    destruct d as [|b0 [|b1 [|b2 [|b3 [|b4 [|b5 d]]]]]]; try discriminate Hlen.
    simpl in Hin. injection Hin as ->.
    pose proof (Hout 1%nat ltac:(right; simpl; lia)) as H1.
    pose proof (Hout 2%nat ltac:(right; simpl; lia)) as H2.
    pose proof (Hout 3%nat ltac:(right; simpl; lia)) as H3.
    pose proof (Hout 4%nat ltac:(right; simpl; lia)) as H4.
    simpl in H1, H2, H3, H4. by simplify_eq.
Defined.

(** ** Reading at and beyond the end of a file *)

(** An empty file reads as no bytes, and that is a success. *)
Lemma fuseRead_empty_file path size offset s f :
  files s !! path = Some f → MyFsFileInfo.size f = 0 →
  fuseRead path size offset s = (Returned 0, [], s).
Proof.
  intros Hf Hsz. unfold fuseRead. rewrite Hf. by rewrite decide_True.
Qed.

(** Up to the end of the file the callback copies what the specification
    asks for: [min(size, fsize - offset)] bytes, taken from the buffer. *)
Lemma fuseRead_within_file path size offset s f :
  files s !! path = Some f → MyFsFileInfo.well_formed f →
  0 ≤ size → 0 ≤ offset ≤ MyFsFileInfo.size f →
  ∃ bytes,
    fuseRead path size offset s
    = (Returned (CInt.to_int (clamped_read_length size (MyFsFileInfo.size f) offset)),
       bytes, s) ∧
    Z.of_nat (length bytes) = clamped_read_length size (MyFsFileInfo.size f) offset ∧
    bytes = take (length bytes) (drop (Z.to_nat offset) (MyFsFileInfo.data f)).
Proof.
  intros Hf [Hlen Hmax] Hsize Hoff. unfold fuseRead, clamped_read_length. rewrite Hf.
  case_decide as Hzero.
  - exists []. rewrite Z.max_l by lia. done.
  - unfold bytesToCopy. rewrite to_size_t_id by lia.
    rewrite (Z.max_r 0) by lia.
    set (n := Z.min size (MyFsFileInfo.size f - offset)).
    unfold load. case_decide as Hn.
    + exists []. rewrite Hn. done.
    + rewrite decide_True by lia. eexists. split; [reflexivity|].
      rewrite length_take, length_drop. split; [lia|].
      f_equal. lia.
Qed.

(** Beyond the end of a non-empty file the subtraction wraps around: the
    callback sets out to copy a positive number of bytes, all of them outside
    the buffer. *)
Lemma fuseRead_beyond_end path size offset s f :
  files s !! path = Some f → MyFsFileInfo.well_formed f →
  MyFsFileInfo.size f ≠ 0 →
  MyFsFileInfo.size f < offset ≤ CInt.OFF_MAX →
  0 < size →
  0 < bytesToCopy size (MyFsFileInfo.size f) offset ∧
  clamped_read_length size (MyFsFileInfo.size f) offset = 0 ∧
  fuseRead path size offset s = (Undefined_behaviour, [], s).
Proof.
  intros Hf [Hlen Hmax] Hne Hoff Hsize.
  assert (CInt.to_size_t (MyFsFileInfo.size f - offset)
          = 2 ^ 64 + MyFsFileInfo.size f - offset) as Hwrap.
  { unfold CInt.to_size_t, CInt.wrap_unsigned, CInt.OFF_MAX, CInt.SIZE_MAX in *.
    symmetry. apply (Z.mod_unique_pos _ _ (-1)); lia. }
  assert (0 < bytesToCopy size (MyFsFileInfo.size f) offset) as Hpos.
  { unfold bytesToCopy. rewrite Hwrap. unfold CInt.OFF_MAX in *. lia. }
  split; [exact Hpos|]. split.
  - unfold clamped_read_length. lia.
  - unfold fuseRead. rewrite Hf. rewrite decide_False by done.
    unfold load. rewrite decide_False by lia. rewrite decide_False by lia. done.
Qed.

(** C1, where the callback leaves it.  "/a.txt" holds 5 bytes; a read of 4
    bytes at offset 6 may copy [max 0 (min 4 (5 - 6)) = 0] bytes, but the
    callback computes [5 - 6] in [size_t], takes 4 as the number of bytes to
    copy and reads them from beyond the end of the buffer. *)
Theorem fuseRead_beyond_end_of_file :
  files Scenario.written !! "/a.txt" = Some Scenario.a_hello ∧
  clamped_read_length 4 (MyFsFileInfo.size Scenario.a_hello) 6 = 0 ∧
  bytesToCopy 4 (MyFsFileInfo.size Scenario.a_hello) 6 = 4 ∧
  load (MyFsFileInfo.data Scenario.a_hello) 6 4 = None ∧
  fuseRead "/a.txt" 4 6 Scenario.written = (Undefined_behaviour, [], Scenario.written).
Proof. vm_compute. repeat split. Qed.

(** ** Renaming *)

(** With the source in the table and a different new name that fits the name
    field, [fuseRename] drops what was under the new name, relabels the source
    record and moves it, content untouched, to the new key. *)
Lemma fuseRename_moves_record NAME_LENGTH path newpath s f :
  files s !! path = Some f → path ≠ newpath →
  strlen (path_plus_1 newpath) ≤ NAME_LENGTH →
  fuseRename NAME_LENGTH path newpath s
  = (Returned 0,
     set_files (delete path
                  (<[newpath := MyFsFileInfo.set_name (path_plus_1 newpath) f]>
                     (delete newpath (files s)))) s).
Proof.
  intros Hf Hne Hlen. unfold fuseRename, strcpy_name, erase. simpl.
  rewrite (decide_True (P := strlen _ ≤ _)) by done.
  case_decide as Hnew.
  - rewrite lookup_delete_ne by done. rewrite Hf. done.
  - rewrite Hf. rewrite (delete_id (files s) newpath); [done|].
    by apply eq_None_not_Some.
Qed.

(** With the source in the table and a different new name that is longer than
    the name field, [strcpy] writes beyond the field: the destination, if
    any, is erased by then. *)
Lemma fuseRename_overlong_result NAME_LENGTH path newpath s f :
  files s !! path = Some f → path ≠ newpath →
  NAME_LENGTH < strlen (path_plus_1 newpath) →
  fuseRename NAME_LENGTH path newpath s
  = (Undefined_behaviour, set_files (delete newpath (files s)) s).
Proof.
  intros Hf Hne Hlen. unfold fuseRename, strcpy_name, erase. simpl.
  rewrite (decide_False (P := strlen _ ≤ _)) by lia.
  case_decide as Hnew.
  - rewrite lookup_delete_ne by done. rewrite Hf. done.
  - rewrite Hf. rewrite (delete_id (files s) newpath); [done|].
    by apply eq_None_not_Some.
Qed.

(** [fuseRename] has no path that returns an error. *)
Lemma fuseRename_never_returns_error NAME_LENGTH path newpath s :
  ¬ returns_error (fuseRename NAME_LENGTH path newpath s).1.
Proof.
  unfold fuseRename. destruct (_ !! path); [destruct (strcpy_name _ _)|]; simpl; lia.
Qed.

(** Without the source in the table, [files.at] throws. *)
Lemma fuseRename_absent_source_throws NAME_LENGTH path newpath s :
  files s !! path = None →
  (fuseRename NAME_LENGTH path newpath s).1 = Throws_out_of_range.
Proof.
  intros Hf. unfold fuseRename, erase. simpl.
  case_decide.
  - destruct (decide (path = newpath)) as [->|Hne].
    + by rewrite lookup_delete_eq.
    + rewrite lookup_delete_ne by done. by rewrite Hf.
  - by rewrite Hf.
Qed.

(** C6, where the callback leaves it.  The table holds "/a.txt" and
    "/b.txt"; renaming the absent "/c.txt" to "/b.txt" returns no error:
    "/b.txt" is erased and [std::out_of_range] leaves the callback. *)
Theorem fuseRename_absent_source :
  files Scenario.two_files !! "/c.txt" = None ∧
  is_Some (files Scenario.two_files !! "/b.txt") ∧
  fuseRename 255 "/c.txt" "/b.txt" Scenario.two_files
  = (Throws_out_of_range, Scenario.written) ∧
  files Scenario.written !! "/b.txt" = None.
Proof. vm_compute. repeat split. eauto. Qed.

(** ** Failed calls *)

(** A call that returns a negative [int] leaves the object as it was: the
    table, every record with its buffer, and the open-file counter.  The byte
    count of a write is one its [int] return can hold; a call that ends in an
    exception is not covered. *)
Lemma failed_call_changes_nothing
    (NAME_LENGTH NUM_DIR_ENTRIES NUM_OPEN_FILES : Z) (h : host) (c : call)
    (s s' : MyInMemoryFS) (r : outcome) :
  byte_count_fits_int c →
  run NAME_LENGTH NUM_DIR_ENTRIES NUM_OPEN_FILES h c s = (r, s') →
  returns_error r →
  s' = s.
Proof.
  intros Hfits Hrun Herr.
  pose proof (fuseRename_never_returns_error) as Hrename.
  destruct c; simpl in Hrun, Hfits.
  3: { specialize (Hrename NAME_LENGTH path newpath s).
       rewrite Hrun in Hrename. done. }
  all: unfold fuseMknod, fuseUnlink, fuseGetattr, fuseChmod, fuseChown,
         fuseOpen, fuseRead, fuseWrite, fuseRelease, fuseTruncate, fuseTruncate_open,
         fuseReaddir, fuseInit, fuseDestroy, erase in Hrun.
  all: try (callback_paths Hrun; try done; try (by destruct s)).
  - exfalso. eauto.
  - rewrite to_int_id in Herr by done. lia.
  - rewrite to_int_id in Herr by done. lia.
Qed.

Lemma failed_call_changes_nothing_witness :
  returns_error (run 255 64 64 Scenario.h0 (Open "/b.txt") Scenario.written).1 ∧
  (run 255 64 64 Scenario.h0 (Open "/b.txt") Scenario.written).2 = Scenario.written.
Proof.
  assert (returns_error
            (run 255 64 64 Scenario.h0 (Open "/b.txt") Scenario.written).1) as Herr
      by (vm_compute; reflexivity).
  split; [exact Herr|].
  apply (failed_call_changes_nothing 255 64 64 Scenario.h0 (Open "/b.txt")
           Scenario.written _ _ I (surjective_pairing _) Herr).
Defined.

(** C9, where a callback leaves it.  The table holds "/a.txt" and "/b.txt".
    Renaming the absent "/c.txt" to "/b.txt" fails: no value is returned,
    [std::out_of_range] leaves the callback.  The object is not what it was
    before the call: the entry "/b.txt" has been erased. *)
Theorem failed_rename_changes_the_table :
  files Scenario.two_files !! "/c.txt" = None ∧
  is_Some (files Scenario.two_files !! "/b.txt") ∧
  ∃ s',
    run 255 64 64 Scenario.h0 (Rename "/c.txt" "/b.txt") Scenario.two_files
    = (Throws_out_of_range, s') ∧
    files s' !! "/b.txt" = None ∧
    size (files s') = 1%nat ∧
    s' ≠ Scenario.two_files.
Proof.
  split; [by vm_compute|]. split; [vm_compute; eauto|].
  exists Scenario.written. split; [by vm_compute|]. split; [by vm_compute|].
  split; [by vm_compute|].
  intros Heq.
  assert (files Scenario.written !! "/b.txt" = files Scenario.two_files !! "/b.txt")
    as Hb by (by rewrite Heq).
  vm_compute in Hb. discriminate Hb.
Qed.

(** ** The scenarios of the specification *)

(** Create "/a.txt", write "hello", read it back, truncate to 2, read again. *)
Example scenario_write_read_truncate :
  let s1 := Scenario.created in
  let s2 := (fuseWrite Scenario.h0 "/a.txt" Scenario.hello 5 0 s1).2 in
  let s3 := (fuseTruncate Scenario.h0 "/a.txt" 2 s2).2 in
  st_size (fuseGetattr Scenario.h0 "/a.txt" Scenario.statbuf0 s1).1.2 = 0 ∧
  (fuseWrite Scenario.h0 "/a.txt" Scenario.hello 5 0 s1).1 = Returned 5 ∧
  st_size (fuseGetattr Scenario.h0 "/a.txt" Scenario.statbuf0 s2).1.2 = 5 ∧
  (fuseRead "/a.txt" 5 0 s2).1 = (Returned 5, Scenario.hello) ∧
  st_size (fuseGetattr Scenario.h0 "/a.txt" Scenario.statbuf0 s3).1.2 = 2 ∧
  (fuseRead "/a.txt" 5 0 s3).1 = (Returned 2, [x68; x65]).
Proof. vm_compute. repeat split. Qed.

(** Rename "/a.txt" over the existing "/b.txt": one entry is left, under
    "/b.txt", with the former content of "/a.txt". *)
Example scenario_rename_over_existing :
  fuseRename 255 "/a.txt" "/b.txt" Scenario.two_files
  = (Returned 0,
     mkFS {[ "/b.txt" := MyFsFileInfo.set_name "b.txt" Scenario.a_hello ]} 0).
Proof. vm_compute. reflexivity. Qed.

(** With room for two open files: the third open fails with [-EMFILE], and
    a close then succeeds. *)
Example scenario_open_limit :
  let s1 := (fuseOpen 2 "/a.txt" Scenario.created).2 in
  let s2 := (fuseOpen 2 "/a.txt" s1).2 in
  fuseOpen 2 "/a.txt" s2 = (Returned (- Errno.EMFILE), s2) ∧
  fuseRelease "/a.txt" s2 = (Returned 0, s1).
Proof. vm_compute. repeat split. Qed.

(** Delete every file: the table ends empty, and a further delete fails
    with [-ENOENT]. *)
Example scenario_delete_all :
  let s1 := (fuseUnlink "/a.txt" Scenario.two_files).2 in
  let s2 := (fuseUnlink "/b.txt" s1).2 in
  files s2 = ∅ ∧ fuseUnlink "/a.txt" s2 = (Returned (- Errno.ENOENT), s2).
Proof. vm_compute. repeat split. Qed.

(** * Further properties of the callbacks *)

(** ** Create and delete *)

Lemma set_files_same s : set_files (files s) s = s.
Proof. by destruct s. Qed.

(** X1. A create that succeeds adds exactly the new record, with size 0 and
    an empty buffer, and leaves every other entry and the open-file counter;
    a second create of the same name, with any mode, fails with [-EEXIST] and
    changes nothing. *)
Theorem fuseMknod_then_again
    (NAME_LENGTH NUM_DIR_ENTRIES : Z) (h h' : host) (path : string) (mode mode' : Z)
    (s s' : MyInMemoryFS) :
  fuseMknod NAME_LENGTH NUM_DIR_ENTRIES h path mode s = (Returned 0, s') →
  files s !! path = None ∧
  files s' !! path = Some (new_MyFsFileInfo h path mode) ∧
  (∀ q, q ≠ path → files s' !! q = files s !! q) ∧
  size (files s') = S (size (files s)) ∧
  openFilesCount s' = openFilesCount s ∧
  fuseMknod NAME_LENGTH NUM_DIR_ENTRIES h' path mode' s'
  = (Returned (- Errno.EEXIST), s').
Proof.
  unfold fuseMknod. intros Hrun.
  case_decide as Hlen; [by simplify_eq|].
  case_decide as Hex; [by simplify_eq|].
  case_decide as Hfull; [by simplify_eq|].
  apply eq_None_not_Some in Hex.
  simplify_eq. simpl. rewrite lookup_insert_eq.
  split; [done|]. split; [done|]. split.
  { intros q Hq. by rewrite lookup_insert_ne. }
  split; [by apply map_size_insert_None|]. split; [done|].
  rewrite decide_True by eauto. done.
Qed.

Lemma fuseMknod_then_again_witness :
  files Scenario.created !! "/a.txt" = Some Scenario.a_empty ∧
  fuseMknod 255 64 Scenario.h0 "/a.txt" Scenario.mode600 Scenario.created
  = (Returned (- Errno.EEXIST), Scenario.created).
Proof.
  destruct (fuseMknod_then_again 255 64 Scenario.h0 Scenario.h0 "/a.txt"
              Scenario.mode644 Scenario.mode600 initial Scenario.created)
    as (_ & Hnew & _ & _ & _ & Hagain).
  - vm_compute. reflexivity.
  - split; [exact Hnew | exact Hagain].
Defined.

(** X2. Deleting a file right after it was created gives back the state
    before the create. *)
Theorem fuseMknod_then_fuseUnlink
    (NAME_LENGTH NUM_DIR_ENTRIES : Z) (h : host) (path : string) (mode : Z)
    (s s' : MyInMemoryFS) :
  fuseMknod NAME_LENGTH NUM_DIR_ENTRIES h path mode s = (Returned 0, s') →
  fuseUnlink path s' = (Returned 0, s).
Proof.
  unfold fuseMknod. intros Hrun.
  case_decide as Hlen; [by simplify_eq|].
  case_decide as Hex; [by simplify_eq|].
  case_decide as Hfull; [by simplify_eq|].
  apply eq_None_not_Some in Hex.
  simplify_eq. unfold fuseUnlink, erase. simpl. rewrite lookup_insert_eq.
  rewrite decide_True by eauto. simpl.
  rewrite delete_insert_eq, delete_id by done.
  by destruct s.
Qed.

Lemma fuseMknod_then_fuseUnlink_witness :
  fuseUnlink "/b.txt" Scenario.two_files = (Returned 0, Scenario.written).
Proof.
  apply (fuseMknod_then_fuseUnlink 255 64 Scenario.h0 "/b.txt" Scenario.mode644
           Scenario.written Scenario.two_files).
  vm_compute. reflexivity.
Defined.

(** X3. Deleting a file that is in the table succeeds and removes that entry
    only: one entry less, every other entry and the open-file counter as
    before.  The name is then unknown: a second delete fails with [-ENOENT]
    and, unless it is the root path, so does a query of its attributes. *)
Theorem fuseUnlink_removes_entry (path : string) (s : MyInMemoryFS) :
  is_Some (files s !! path) →
  ∃ s',
    fuseUnlink path s = (Returned 0, s') ∧
    files s' !! path = None ∧
    (∀ q, q ≠ path → files s' !! q = files s !! q) ∧
    S (size (files s')) = size (files s) ∧
    openFilesCount s' = openFilesCount s ∧
    fuseUnlink path s' = (Returned (- Errno.ENOENT), s') ∧
    (path ≠ "/" →
     ∀ h statbuf, (fuseGetattr h path statbuf s').1.1 = Returned (- Errno.ENOENT)).
Proof.
  intros [f Hf]. unfold fuseUnlink at 1. unfold erase. rewrite Hf.
  rewrite decide_True by eauto. simpl.
  eexists. split; [reflexivity|]. simpl.
  rewrite lookup_delete_eq. split; [done|]. split.
  { intros q Hq. by rewrite lookup_delete_ne. }
  split.
  { rewrite map_size_delete_Some by eauto.
    assert (size (files s) ≠ 0%nat) by (apply map_size_ne_0_lookup_2 with path; eauto).
    lia. }
  split; [done|]. split.
  - unfold fuseUnlink. simpl. by rewrite lookup_delete_eq.
  - intros Hroot h statbuf. unfold fuseGetattr. simpl.
    rewrite decide_False by done. by rewrite lookup_delete_eq.
Qed.

Lemma fuseUnlink_removes_entry_witness :
  ∃ s',
    fuseUnlink "/a.txt" Scenario.written = (Returned 0, s') ∧
    files s' !! "/a.txt" = None ∧
    fuseUnlink "/a.txt" s' = (Returned (- Errno.ENOENT), s').
Proof.
  destruct (fuseUnlink_removes_entry "/a.txt" Scenario.written)
    as (s' & Hrun & Hgone & _ & _ & _ & Hagain & _).
  - vm_compute. eauto.
  - exists s'. split; [exact Hrun|]. split; [exact Hgone | exact Hagain].
Defined.

(** ** Rename *)

(** X4. With the source in the table and a different new name of at most
    [NAME_LENGTH] characters, [fuseRename] succeeds: the old key is gone, the
    new key holds the source record relabelled (permissions, owner, size and
    buffer as they were), every other entry and the open-file counter are as
    before, and the table has one entry less exactly when the new name was
    taken. *)
Theorem fuseRename_effect (NAME_LENGTH : Z) (path newpath : string)
    (s : MyInMemoryFS) (f : MyFsFileInfo.t) :
  files s !! path = Some f →
  path ≠ newpath →
  strlen (path_plus_1 newpath) ≤ NAME_LENGTH →
  ∃ s',
    fuseRename NAME_LENGTH path newpath s = (Returned 0, s') ∧
    files s' !! path = None ∧
    files s' !! newpath = Some (MyFsFileInfo.set_name (path_plus_1 newpath) f) ∧
    (∀ q, q ≠ path → q ≠ newpath → files s' !! q = files s !! q) ∧
    (files s !! newpath = None → size (files s') = size (files s)) ∧
    (is_Some (files s !! newpath) → S (size (files s')) = size (files s)) ∧
    openFilesCount s' = openFilesCount s.
Proof.
  intros Hf Hne Hfits. rewrite (fuseRename_moves_record _ _ _ _ _ Hf Hne Hfits).
  eexists. split; [reflexivity|]. simpl.
  rewrite lookup_delete_eq. split; [done|].
  rewrite lookup_delete_ne, lookup_insert_eq by done. split; [done|].
  split.
  { intros q Hq Hq'.
    by rewrite lookup_delete_ne, lookup_insert_ne, lookup_delete_ne. }
  assert (size (delete path
                  (<[newpath:=MyFsFileInfo.set_name (path_plus_1 newpath) f]>
                     (delete newpath (files s))))
          = size (delete newpath (files s))) as Hsize.
  { rewrite map_size_delete_Some.
    - rewrite map_size_insert_None by apply lookup_delete_eq. done.
    - rewrite lookup_insert_ne, lookup_delete_ne by done. eauto. }
  rewrite Hsize. split; [|split; [|done]].
  - intros Hnew. by rewrite map_size_delete_None.
  - intros Hnew. rewrite map_size_delete_Some by done.
    assert (size (files s) ≠ 0%nat) by (apply map_size_ne_0_lookup_2 with path; eauto).
    lia.
Qed.

Lemma fuseRename_effect_witness :
  ∃ s',
    fuseRename 255 "/a.txt" "/b.txt" Scenario.two_files = (Returned 0, s') ∧
    files s' !! "/a.txt" = None ∧
    files s' !! "/b.txt" = Some (MyFsFileInfo.set_name "b.txt" Scenario.a_hello) ∧
    size (files s') = 1%nat.
Proof.
  destruct (fuseRename_effect 255 "/a.txt" "/b.txt" Scenario.two_files
              Scenario.a_hello) as (s' & Hrun & Hold & Hnew & _ & _ & Hsize & _).
  - vm_compute. reflexivity.
  - discriminate.
  - vm_compute. discriminate.
  - exists s'. split; [exact Hrun|]. split; [exact Hold|]. split; [exact Hnew|].
    assert (is_Some (files Scenario.two_files !! "/b.txt")) as Hex
        by (vm_compute; eauto).
    apply Hsize in Hex. vm_compute in Hex. by injection Hex.
Defined.

(** X5. Renaming a file to an unused name and back gives the state before
    the two calls, when both names have at most [NAME_LENGTH] characters and
    the record carried its key as its name. *)
Theorem fuseRename_there_and_back (NAME_LENGTH : Z) (path newpath : string)
    (s : MyInMemoryFS) (f : MyFsFileInfo.t) :
  files s !! path = Some f →
  MyFsFileInfo.name f = path_plus_1 path →
  files s !! newpath = None →
  strlen (path_plus_1 path) ≤ NAME_LENGTH →
  strlen (path_plus_1 newpath) ≤ NAME_LENGTH →
  ∃ s1,
    fuseRename NAME_LENGTH path newpath s = (Returned 0, s1) ∧
    fuseRename NAME_LENGTH newpath path s1 = (Returned 0, s).
Proof.
  intros Hf Hname Hnew Hlen Hlen'.
  assert (path ≠ newpath) as Hne by congruence.
  rewrite (fuseRename_moves_record _ _ _ _ _ Hf Hne Hlen').
  eexists. split; [reflexivity|].
  erewrite fuseRename_moves_record; [|simpl|done|done].
  2:{ rewrite lookup_delete_ne, lookup_insert_eq by done. reflexivity. }
  f_equal. destruct s as [m c]. simpl in *. unfold set_files. simpl. f_equal.
  apply map_eq. intros q.
  destruct (decide (q = newpath)) as [->|Hq1].
  { by rewrite lookup_delete_eq. }
  rewrite lookup_delete_ne by done.
  destruct (decide (q = path)) as [->|Hq2].
  { rewrite lookup_insert_eq, Hf. f_equal. destruct f. simpl in *. by subst. }
  rewrite lookup_insert_ne by done.
  by rewrite !lookup_delete_ne, lookup_insert_ne, lookup_delete_ne.
Qed.

Lemma fuseRename_there_and_back_witness :
  ∃ s1,
    fuseRename 255 "/a.txt" "/c.txt" Scenario.two_files = (Returned 0, s1) ∧
    fuseRename 255 "/c.txt" "/a.txt" s1 = (Returned 0, Scenario.two_files).
Proof.
  apply (fuseRename_there_and_back 255 "/a.txt" "/c.txt" Scenario.two_files
           Scenario.a_hello).
  - vm_compute. reflexivity.
  - reflexivity.
  - vm_compute. reflexivity.
  - vm_compute. discriminate.
  - vm_compute. discriminate.
Defined.

(** ** Invariants of the records *)

Lemma names_match_keys_lookup (m : gmap string MyFsFileInfo.t) k f :
  map_Forall (λ k f, MyFsFileInfo.name f = path_plus_1 k) m → m !! k = Some f →
  MyFsFileInfo.name f = path_plus_1 k.
Proof. intros Hm Hk. exact (map_Forall_lookup_1 _ _ _ _ Hm Hk). Qed.

Lemma fuseWrite_names_match_keys h path buf size offset s r s' :
  names_match_keys s → fuseWrite h path buf size offset s = (r, s') →
  names_match_keys s'.
Proof.
  unfold names_match_keys, fuseWrite. intros Hs Hrun.
  destruct (files s !! path) as [f|] eqn:Hf; [|by simplify_eq].
  pose proof (names_match_keys_lookup _ _ _ Hs Hf) as Hname.
  set (f' := if decide (MyFsFileInfo.size f < CInt.to_size_t (offset + size))
             then _ else f) in Hrun.
  assert (MyFsFileInfo.name f' = path_plus_1 path) as Hname'.
  { subst f'. by case_decide. }
  destruct (load buf 0 size ≫= store (MyFsFileInfo.data f') offset) as [d|];
    simplify_eq; simpl; by apply map_Forall_insert_2.
Qed.

Lemma run_names_match_keys NAME_LENGTH NUM_DIR_ENTRIES NUM_OPEN_FILES h c s r s' :
  names_match_keys s →
  run NAME_LENGTH NUM_DIR_ENTRIES NUM_OPEN_FILES h c s = (r, s') →
  names_match_keys s'.
Proof.
  intros Hs Hrun.
  destruct c; simpl in Hrun; try (by eapply fuseWrite_names_match_keys).
  all: unfold names_match_keys in *;
    unfold fuseMknod, fuseUnlink, fuseRename, strcpy_name, fuseGetattr, fuseChmod, fuseChown,
      fuseOpen, fuseRead, fuseRelease, fuseTruncate, fuseTruncate_open,
      fuseReaddir, fuseInit, fuseDestroy, erase in Hrun;
    callback_paths Hrun; try done;
    repeat first [ apply map_Forall_delete | apply map_Forall_insert_2 | assumption ];
    simpl; try done;
    repeat match goal with
      | Hl : delete _ _ !! _ = Some _ |- _ => apply lookup_delete_Some in Hl as [_ Hl]
      end;
    by eapply names_match_keys_lookup.
Qed.

(** X6. In every reachable state each record carries, as its [name], the key
    it is stored under without its first character: create and rename keep
    the two in step, and no other call touches either. *)
Theorem reachable_names_match_keys
    (NAME_LENGTH NUM_DIR_ENTRIES NUM_OPEN_FILES : Z) (s : MyInMemoryFS)
    (path : string) (f : MyFsFileInfo.t) :
  reachable NAME_LENGTH NUM_DIR_ENTRIES NUM_OPEN_FILES s →
  files s !! path = Some f →
  MyFsFileInfo.name f = path_plus_1 path.
Proof.
  intros Hs. revert path f.
  induction Hs as [|h c s r s' _ IH Hrun _]; intros path f Hf.
  - simpl in Hf. by rewrite lookup_empty in Hf.
  - assert (names_match_keys s) as Hinv by (intros k g Hk; by apply IH).
    exact (names_match_keys_lookup _ _ _
             (run_names_match_keys _ _ _ _ _ _ _ _ Hinv Hrun) Hf).
Qed.

Lemma reachable_two_files : reachable 255 64 64 Scenario.two_files.
Proof.
  apply (reachable_run 255 64 64 Scenario.h0 (Mknod "/b.txt" Scenario.mode644)
           Scenario.written (Returned 0)); [|by vm_compute|discriminate].
  apply (reachable_run 255 64 64 Scenario.h0 (Write "/a.txt" Scenario.hello 5 0)
           Scenario.created (Returned 5)); [|by vm_compute|discriminate].
  apply (reachable_run 255 64 64 Scenario.h0 (Mknod "/a.txt" Scenario.mode644)
           initial (Returned 0)); [|by vm_compute|discriminate].
  apply reachable_initial.
Defined.

Lemma reachable_names_match_keys_witness :
  MyFsFileInfo.name Scenario.a_hello = "a.txt".
Proof.
  apply (reachable_names_match_keys 255 64 64 Scenario.two_files "/a.txt"
           Scenario.a_hello reachable_two_files).
  vm_compute. reflexivity.
Defined.

(** X7. In every reachable state the buffer of each record is exactly as long
    as its [size] says, and [size] is a [size_t] value: create, write and
    truncate set the two together. *)
Theorem reachable_buffer_length_is_size
    (NAME_LENGTH NUM_DIR_ENTRIES NUM_OPEN_FILES : Z) (s : MyInMemoryFS)
    (path : string) (f : MyFsFileInfo.t) :
  reachable NAME_LENGTH NUM_DIR_ENTRIES NUM_OPEN_FILES s →
  files s !! path = Some f →
  Z.of_nat (length (MyFsFileInfo.data f)) = MyFsFileInfo.size f ∧
  0 ≤ MyFsFileInfo.size f ≤ CInt.SIZE_MAX.
Proof.
  intros Hs Hf.
  pose proof (reachable_buffers_well_formed _ _ _ _ Hs) as Hwf.
  destruct (well_formed_lookup _ _ _ Hwf Hf) as [Hlen Hmax]. lia.
Qed.

Lemma reachable_buffer_length_is_size_witness :
  Z.of_nat (length (MyFsFileInfo.data Scenario.a_hello))
  = MyFsFileInfo.size Scenario.a_hello ∧
  0 ≤ MyFsFileInfo.size Scenario.a_hello ≤ CInt.SIZE_MAX.
Proof.
  apply (reachable_buffer_length_is_size 255 64 64 Scenario.two_files "/a.txt"
           Scenario.a_hello reachable_two_files).
  vm_compute. reflexivity.
Defined.

Lemma strlen_path_of_length n : strlen (path_plus_1 (path_of_length n)) = Z.of_nat n.
Proof.
  unfold strlen, path_of_length. simpl. f_equal.
  induction n as [|n IH]; simpl; [done | by rewrite IH].
Qed.

(** X8. The limit on the length of names is tested by create only.  With the
    source in the table and a different new name of more than [NAME_LENGTH]
    characters, [fuseRename] copies the name beyond the name field of the
    record, into the members behind it: the call has no defined result, and
    the entry under the new name, if there was one, has been erased by then.
    A create of that same path is refused with [-ENAMETOOLONG] and changes
    nothing. *)
Theorem fuseRename_ignores_NAME_LENGTH
    (NAME_LENGTH NUM_DIR_ENTRIES : Z) (h : host) (mode : Z) (path newpath : string)
    (s : MyInMemoryFS) (f : MyFsFileInfo.t) :
  files s !! path = Some f →
  path ≠ newpath →
  NAME_LENGTH < strlen (path_plus_1 newpath) →
  fuseRename NAME_LENGTH path newpath s
  = (Undefined_behaviour, set_files (delete newpath (files s)) s) ∧
  fuseMknod NAME_LENGTH NUM_DIR_ENTRIES h newpath mode s
  = (Returned (- Errno.ENAMETOOLONG), s).
Proof.
  intros Hf Hne Hlong. split.
  - by eapply fuseRename_overlong_result.
  - unfold fuseMknod. by rewrite decide_True.
Qed.

Lemma fuseRename_ignores_NAME_LENGTH_witness :
  fuseRename 255 "/a.txt" (path_of_length 256) Scenario.two_files
  = (Undefined_behaviour,
     set_files (delete (path_of_length 256) (files Scenario.two_files))
       Scenario.two_files) ∧
  fuseMknod 255 64 Scenario.h0 (path_of_length 256) Scenario.mode644 Scenario.two_files
  = (Returned (- Errno.ENAMETOOLONG), Scenario.two_files).
Proof.
  apply (fuseRename_ignores_NAME_LENGTH 255 64 Scenario.h0 Scenario.mode644
           "/a.txt" (path_of_length 256) Scenario.two_files Scenario.a_hello).
  - vm_compute. reflexivity.
  - intros Heq. apply (f_equal (λ p, strlen (path_plus_1 p))) in Heq.
    rewrite strlen_path_of_length in Heq. vm_compute in Heq. discriminate Heq.
  - rewrite strlen_path_of_length. lia.
Defined.

(** ** Permissions and ownership *)

(** [fuseGetattr] looks at nothing but the presence of the path and the
    size of its record. *)
Lemma fuseGetattr_by_sizes h q statbuf s1 s2 :
  MyFsFileInfo.size <$> files s1 !! q = MyFsFileInfo.size <$> files s2 !! q →
  (fuseGetattr h q statbuf s1).1 = (fuseGetattr h q statbuf s2).1.
Proof.
  unfold fuseGetattr. intros Hq. case_decide; [done|].
  destruct (files s1 !! q), (files s2 !! q); simplify_eq/=; congruence.
Qed.

(** X9. [fuseChmod] of a file in the table stores the mode in its record, for
    any mode, and leaves the rest of the record, every other entry and the
    open-file counter; what [fuseGetattr] reports, for any path, is the same
    before and after: the stored permissions are never shown. *)
Theorem fuseChmod_effect (path : string) (mode : Z) (s : MyInMemoryFS)
    (f : MyFsFileInfo.t) :
  files s !! path = Some f →
  ∃ s',
    fuseChmod path mode s = (Returned 0, s') ∧
    files s' !! path = Some (MyFsFileInfo.set_permissions mode f) ∧
    (∀ q, q ≠ path → files s' !! q = files s !! q) ∧
    openFilesCount s' = openFilesCount s ∧
    (∀ h q statbuf, (fuseGetattr h q statbuf s').1 = (fuseGetattr h q statbuf s).1).
Proof.
  intros Hf. unfold fuseChmod. rewrite Hf.
  eexists. split; [reflexivity|]. simpl. rewrite lookup_insert_eq.
  split; [done|]. split.
  { intros q Hq. by rewrite lookup_insert_ne. }
  split; [done|].
  intros h q statbuf. apply fuseGetattr_by_sizes. simpl.
  destruct (decide (q = path)) as [->|Hq].
  - by rewrite lookup_insert_eq, Hf.
  - by rewrite lookup_insert_ne.
Qed.

Lemma fuseChmod_effect_witness :
  ∃ s',
    fuseChmod "/a.txt" Scenario.mode600 Scenario.written = (Returned 0, s') ∧
    files s' !! "/a.txt"
    = Some (MyFsFileInfo.set_permissions Scenario.mode600 Scenario.a_hello) ∧
    st_mode (fuseGetattr Scenario.h0 "/a.txt" Scenario.statbuf0 s').1.2
    = Scenario.mode644.
Proof.
  destruct (fuseChmod_effect "/a.txt" Scenario.mode600 Scenario.written
              Scenario.a_hello) as (s' & Hrun & Hnew & _ & _ & Hstat).
  - vm_compute. reflexivity.
  - exists s'. split; [exact Hrun|]. split; [exact Hnew|].
    rewrite Hstat. vm_compute. reflexivity.
Defined.

(** X10. [fuseChown] of a file in the table stores both identifiers, for
    every value a [uid_t] and a [gid_t] can take (the tests [uid >= 0] and
    [gid >= 0] hold for all of them), and leaves the rest of the record, every
    other entry and the counter; [fuseGetattr] reports the same before and
    after, for any path. *)
Theorem fuseChown_effect (path : string) (uid gid : Z) (s : MyInMemoryFS)
    (f : MyFsFileInfo.t) :
  files s !! path = Some f →
  0 ≤ uid → 0 ≤ gid →
  ∃ s',
    fuseChown path uid gid s = (Returned 0, s') ∧
    files s' !! path
    = Some (MyFsFileInfo.set_group gid (MyFsFileInfo.set_owner uid f)) ∧
    (∀ q, q ≠ path → files s' !! q = files s !! q) ∧
    openFilesCount s' = openFilesCount s ∧
    (∀ h q statbuf, (fuseGetattr h q statbuf s').1 = (fuseGetattr h q statbuf s).1).
Proof.
  intros Hf Huid Hgid. unfold fuseChown. rewrite Hf.
  rewrite !decide_True by done.
  eexists. split; [reflexivity|]. simpl. rewrite lookup_insert_eq.
  split; [done|]. split.
  { intros q Hq. by rewrite lookup_insert_ne. }
  split; [done|].
  intros h q statbuf. apply fuseGetattr_by_sizes. simpl.
  destruct (decide (q = path)) as [->|Hq].
  - by rewrite lookup_insert_eq, Hf.
  - by rewrite lookup_insert_ne.
Qed.

Lemma fuseChown_effect_witness :
  ∃ s',
    fuseChown "/a.txt" 4294967295 7 Scenario.written = (Returned 0, s') ∧
    files s' !! "/a.txt"
    = Some (MyFsFileInfo.set_group 7
              (MyFsFileInfo.set_owner 4294967295 Scenario.a_hello)) ∧
    st_uid (fuseGetattr Scenario.h0 "/a.txt" Scenario.statbuf0 s').1.2 = 1000.
Proof.
  destruct (fuseChown_effect "/a.txt" 4294967295 7 Scenario.written
              Scenario.a_hello) as (s' & Hrun & Hnew & _ & _ & Hstat).
  - vm_compute. reflexivity.
  - lia.
  - lia.
  - exists s'. split; [exact Hrun|]. split; [exact Hnew|].
    rewrite Hstat. vm_compute. reflexivity.
Defined.

(** ** Opening and closing *)

(** X11. The counter does not know which file was opened: after an open that
    succeeds, a close of any file in the table, the same or another, succeeds
    and gives back the state before the open. *)
Theorem fuseOpen_then_fuseRelease (NUM_OPEN_FILES : Z) (path path' : string)
    (s : MyInMemoryFS) :
  NUM_OPEN_FILES ≤ CInt.UINT_MAX →
  0 ≤ openFilesCount s < NUM_OPEN_FILES →
  is_Some (files s !! path) →
  is_Some (files s !! path') →
  ∃ s1,
    fuseOpen NUM_OPEN_FILES path s = (Returned 0, s1) ∧
    openFilesCount s1 = openFilesCount s + 1 ∧
    fuseRelease path' s1 = (Returned 0, s).
Proof.
  intros HN Hc [f Hf] [f' Hf']. unfold fuseOpen, fuseRelease. rewrite Hf.
  rewrite decide_False by lia. rewrite to_uint_id by lia.
  eexists. split; [reflexivity|]. simpl. split; [done|].
  rewrite Hf'. rewrite decide_False by lia.
  rewrite to_uint_id by lia.
  replace (openFilesCount s + 1 - 1) with (openFilesCount s) by lia.
  by destruct s.
Qed.

Lemma fuseOpen_then_fuseRelease_witness :
  ∃ s1,
    fuseOpen 64 "/a.txt" Scenario.two_files = (Returned 0, s1) ∧
    openFilesCount s1 = openFilesCount Scenario.two_files + 1 ∧
    fuseRelease "/b.txt" s1 = (Returned 0, Scenario.two_files).
Proof.
  apply (fuseOpen_then_fuseRelease 64 "/a.txt" "/b.txt" Scenario.two_files).
  - vm_compute. discriminate.
  - vm_compute. split; [discriminate | reflexivity].
  - vm_compute. eauto.
  - vm_compute. eauto.
Defined.

Lemma run_calls_opens NAME_LENGTH NUM_DIR_ENTRIES NUM_OPEN_FILES h path (k : nat) s :
  0 ≤ openFilesCount s ≤ NUM_OPEN_FILES → NUM_OPEN_FILES ≤ CInt.UINT_MAX →
  is_Some (files s !! path) →
  run_calls NAME_LENGTH NUM_DIR_ENTRIES NUM_OPEN_FILES h (replicate k (Open path)) s
  = set_openFilesCount (Z.min (openFilesCount s + Z.of_nat k) NUM_OPEN_FILES) s.
Proof.
  intros Hc HN [f Hf]. revert s Hc Hf.
  induction k as [|k IH]; intros s Hc Hf.
  - simpl. rewrite Z.min_l by lia. rewrite Z.add_0_r. by destruct s.
  - simpl. unfold fuseOpen. rewrite Hf. case_decide as Hfull; simpl.
    + rewrite IH by done. f_equal. lia.
    + rewrite to_uint_id by lia. rewrite IH by (simpl; done || lia).
      unfold set_openFilesCount. simpl. f_equal. lia.
Qed.

Lemma run_calls_releases NAME_LENGTH NUM_DIR_ENTRIES NUM_OPEN_FILES h path (k : nat) s :
  0 ≤ openFilesCount s ≤ CInt.UINT_MAX →
  is_Some (files s !! path) →
  run_calls NAME_LENGTH NUM_DIR_ENTRIES NUM_OPEN_FILES h (replicate k (Release path)) s
  = set_openFilesCount (Z.max (openFilesCount s - Z.of_nat k) 0) s.
Proof.
  intros Hc [f Hf]. revert s Hc Hf.
  induction k as [|k IH]; intros s Hc Hf.
  - simpl. rewrite Z.max_l by lia. rewrite Z.sub_0_r. by destruct s.
  - simpl. unfold fuseRelease. rewrite Hf. case_decide as Hzero; simpl.
    + rewrite IH by done. f_equal. lia.
    + rewrite to_uint_id by lia. rewrite IH by (simpl; done || lia).
      unfold set_openFilesCount. simpl. f_equal. lia.
Qed.

(** X12. Opening a file in the table [k] times in a row moves the counter
    from [c] to [min (c + k) NUM_OPEN_FILES], closing it [k] times in a row to
    [max (c - k) 0]; nothing else changes.  Opens beyond the limit and closes
    below 0 are refused one by one and leave no trace. *)
Theorem repeated_opens_and_closes
    (NAME_LENGTH NUM_DIR_ENTRIES NUM_OPEN_FILES : Z) (h : host) (path : string)
    (k : nat) (s : MyInMemoryFS) :
  0 ≤ openFilesCount s ≤ NUM_OPEN_FILES →
  NUM_OPEN_FILES ≤ CInt.UINT_MAX →
  is_Some (files s !! path) →
  run_calls NAME_LENGTH NUM_DIR_ENTRIES NUM_OPEN_FILES h (replicate k (Open path)) s
  = set_openFilesCount (Z.min (openFilesCount s + Z.of_nat k) NUM_OPEN_FILES) s ∧
  run_calls NAME_LENGTH NUM_DIR_ENTRIES NUM_OPEN_FILES h (replicate k (Release path)) s
  = set_openFilesCount (Z.max (openFilesCount s - Z.of_nat k) 0) s.
Proof.
  intros Hc HN Hf. split.
  - by apply run_calls_opens.
  - apply run_calls_releases; [lia | done].
Qed.

Lemma repeated_opens_and_closes_witness :
  run_calls 255 64 2 Scenario.h0 (replicate 5 (Open "/a.txt")) Scenario.written
  = set_openFilesCount 2 Scenario.written ∧
  run_calls 255 64 2 Scenario.h0 (replicate 5 (Release "/a.txt")) Scenario.written
  = set_openFilesCount 0 Scenario.written.
Proof.
  apply (repeated_opens_and_closes 255 64 2 Scenario.h0 "/a.txt" 5 Scenario.written).
  - vm_compute. split; discriminate.
  - vm_compute. discriminate.
  - vm_compute. eauto.
Defined.

(** X13. Deleting a file does not look at the counter.  After an open and a
    delete of the same file the counter still counts the open, and a close of
    that name is refused with [-ENOENT]: the open can only be given back
    through another file. *)
Theorem fuseUnlink_of_open_file (NUM_OPEN_FILES : Z) (path : string)
    (s : MyInMemoryFS) :
  NUM_OPEN_FILES ≤ CInt.UINT_MAX →
  0 ≤ openFilesCount s < NUM_OPEN_FILES →
  is_Some (files s !! path) →
  ∃ s1 s2,
    fuseOpen NUM_OPEN_FILES path s = (Returned 0, s1) ∧
    fuseUnlink path s1 = (Returned 0, s2) ∧
    openFilesCount s2 = openFilesCount s + 1 ∧
    fuseRelease path s2 = (Returned (- Errno.ENOENT), s2) ∧
    (∀ other, is_Some (files s2 !! other) →
              fuseRelease other s2 = (Returned 0, set_files (files s2) s)).
Proof.
  intros HN Hc [f Hf]. unfold fuseOpen, fuseUnlink, erase. rewrite Hf.
  rewrite decide_False by lia. rewrite to_uint_id by lia.
  eexists _, _. split; [reflexivity|]. simpl. rewrite Hf.
  rewrite decide_True by eauto. simpl.
  split; [reflexivity|]. simpl. split; [done|]. split.
  - unfold fuseRelease. simpl. by rewrite lookup_delete_eq.
  - intros other [g Hg]. unfold fuseRelease. simpl in *. rewrite Hg.
    rewrite decide_False by lia. rewrite to_uint_id by lia.
    unfold set_openFilesCount, set_files. simpl. do 2 f_equal. lia.
Qed.

Lemma fuseUnlink_of_open_file_witness :
  ∃ s1 s2,
    fuseOpen 64 "/a.txt" Scenario.two_files = (Returned 0, s1) ∧
    fuseUnlink "/a.txt" s1 = (Returned 0, s2) ∧
    openFilesCount s2 = 1 ∧
    fuseRelease "/a.txt" s2 = (Returned (- Errno.ENOENT), s2).
Proof.
  destruct (fuseUnlink_of_open_file 64 "/a.txt" Scenario.two_files)
    as (s1 & s2 & Hopen & Hdel & Hcount & Hclose & _).
  - vm_compute. discriminate.
  - vm_compute. split; [discriminate | reflexivity].
  - vm_compute. eauto.
  - exists s1, s2. split; [exact Hopen|]. split; [exact Hdel|].
    split; [exact Hcount | exact Hclose].
Defined.

(** X14. [fuseInit] forgets every open: it sets the counter to 0 and leaves
    the table, so that a close of any path, present or not, is refused with
    [-ENOENT] until a file is opened again. *)
Theorem fuseInit_forgets_opens (s : MyInMemoryFS) (path : string) :
  ∃ s0,
    fuseInit s = (Returned 0, s0) ∧
    files s0 = files s ∧
    openFilesCount s0 = 0 ∧
    fuseRelease path s0 = (Returned (- Errno.ENOENT), s0).
Proof.
  unfold fuseInit. eexists. split; [reflexivity|]. simpl.
  split; [done|]. split; [done|].
  unfold fuseRelease. simpl. by destruct (files s !! path).
Qed.

(** ** Reading *)

Lemma fuseRead_in_range_result path size offset s f :
  files s !! path = Some f → MyFsFileInfo.well_formed f →
  0 ≤ size ≤ CInt.INT_MAX → 0 ≤ offset ≤ MyFsFileInfo.size f →
  fuseRead path size offset s
  = (Returned (Z.min size (MyFsFileInfo.size f - offset)),
     take (Z.to_nat (Z.min size (MyFsFileInfo.size f - offset)))
       (drop (Z.to_nat offset) (MyFsFileInfo.data f)),
     s).
Proof.
  intros Hf [Hlen Hmax] Hsize Hoff. unfold fuseRead. rewrite Hf.
  case_decide as Hzero.
  - replace (Z.min size (MyFsFileInfo.size f - offset)) with 0 by lia. done.
  - unfold bytesToCopy. rewrite to_size_t_id by lia.
    set (n := Z.min size (MyFsFileInfo.size f - offset)).
    rewrite to_int_id by lia.
    unfold load. case_decide as Hn.
    + rewrite Hn. done.
    + rewrite decide_True by lia. done.
Qed.

(** X15. A read that starts inside the file or at its end (for a record whose
    buffer is as long as its size) returns [min(size, stored size - offset)]
    and hands over exactly that many bytes of the buffer from [offset] on: a
    short read near the end, no bytes at the end, and never an error. *)
Theorem fuseRead_in_range (path : string) (size offset : Z) (s : MyInMemoryFS)
    (f : MyFsFileInfo.t) :
  files s !! path = Some f →
  MyFsFileInfo.well_formed f →
  0 ≤ size ≤ CInt.INT_MAX →
  0 ≤ offset ≤ MyFsFileInfo.size f →
  ∃ n bytes,
    fuseRead path size offset s = (Returned n, bytes, s) ∧
    n = Z.min size (MyFsFileInfo.size f - offset) ∧
    Z.of_nat (length bytes) = n ∧
    bytes = take (Z.to_nat n) (drop (Z.to_nat offset) (MyFsFileInfo.data f)) ∧
    (offset = MyFsFileInfo.size f → n = 0 ∧ bytes = []).
Proof.
  intros Hf Hwf Hsize Hoff.
  rewrite (fuseRead_in_range_result _ _ _ _ _ Hf Hwf Hsize Hoff).
  destruct Hwf as [Hlen Hmax].
  eexists _, _. split; [reflexivity|]. split; [done|]. split.
  { rewrite length_take, length_drop. lia. }
  split; [done|].
  intros ->. replace (Z.min size (MyFsFileInfo.size f - MyFsFileInfo.size f)) with 0 by lia.
  done.
Qed.

Lemma fuseRead_in_range_witness :
  ∃ n bytes,
    fuseRead "/a.txt" 10 3 Scenario.written = (Returned n, bytes, Scenario.written) ∧
    n = 2 ∧ bytes = [x6c; x6f].
Proof.
  destruct (fuseRead_in_range "/a.txt" 10 3 Scenario.written Scenario.a_hello)
    as (n & bytes & Hrun & Hn & _ & Hbytes & _).
  - vm_compute. reflexivity.
  - vm_compute. split; [reflexivity | discriminate].
  - vm_compute. split; discriminate.
  - vm_compute. split; discriminate.
  - exists n, bytes. split; [exact Hrun|].
    assert (n = 2) as Hn2 by (rewrite Hn; vm_compute; reflexivity).
    split; [exact Hn2|]. rewrite Hbytes, Hn2. vm_compute. reflexivity.
Defined.

(** X16. The queries never change the object: whatever the path and the
    other arguments, and whether they succeed, fail or read outside a buffer,
    [fuseGetattr], [fuseRead] and [fuseReaddir] leave the table and the
    counter as they were. *)
Theorem queries_leave_the_state (h : host) (path : string) (statbuf : stat)
    (size offset : Z) (s : MyInMemoryFS) :
  (fuseGetattr h path statbuf s).2 = s ∧
  (fuseRead path size offset s).2 = s ∧
  (fuseReaddir path s).2 = s.
Proof.
  unfold fuseGetattr, fuseRead, fuseReaddir. repeat split.
  - case_decide; [done|]. by destruct (files s !! path).
  - destruct (files s !! path) as [f|]; [|done].
    case_decide; [done|]. by destruct (load _ _ _).
Qed.

(** ** Writing beyond the end *)

Lemma realloc_grow fresh (p : list byte) n :
  Z.of_nat (length p) ≤ n →
  realloc fresh p n = p ++ (fresh <$> seq (length p) (Z.to_nat n - length p)).
Proof. intros Hn. unfold realloc. rewrite take_ge by lia. done. Qed.

Lemma realloc_shrink fresh (p : list byte) n :
  n ≤ Z.of_nat (length p) → realloc fresh p n = take (Z.to_nat n) p.
Proof.
  intros Hn. unfold realloc.
  replace (Z.to_nat n - length p)%nat with 0%nat by lia. simpl.
  by rewrite app_nil_r.
Qed.

Lemma fuseWrite_beyond_end_result h path buf offset s f :
  files s !! path = Some f → MyFsFileInfo.well_formed f →
  0 ≤ offset →
  MyFsFileInfo.size f < offset + Z.of_nat (length buf) ≤ CInt.SIZE_MAX →
  fuseWrite h path buf (Z.of_nat (length buf)) offset s
  = (Returned (CInt.to_int (Z.of_nat (length buf))),
     set_files
       (<[path := MyFsFileInfo.set_data
                    (take (Z.to_nat offset) (MyFsFileInfo.data f)
                       ++ gap_bytes h (length (MyFsFileInfo.data f)) offset ++ buf)
                    (MyFsFileInfo.set_size (offset + Z.of_nat (length buf)) f)]>
          (files s)) s).
Proof.
  intros Hf [Hlen Hmax] Hoff Hend. unfold fuseWrite. rewrite Hf.
  rewrite to_size_t_id by lia. rewrite decide_True by lia.
  rewrite load_all. simpl.
  set (R := realloc (fresh h) (MyFsFileInfo.data f) (offset + Z.of_nat (length buf))).
  assert (length R = Z.to_nat (offset + Z.of_nat (length buf))) as HR
      by apply length_realloc.
  destruct (store_in_bounds R offset buf) as [d Hd]; [lia..|].
  rewrite Hd. do 3 f_equal.
  unfold MyFsFileInfo.set_data, MyFsFileInfo.set_size. simpl. f_equal.
  apply store_frame in Hd; [|lia..]. subst d.
  rewrite (drop_ge R) by lia. rewrite app_nil_r, (app_assoc _ _ buf). f_equal.
  subst R. rewrite realloc_grow by lia.
  unfold gap_bytes.
  rewrite take_app. f_equal.
  rewrite <- fmap_take, take_seq. do 2 f_equal. lia.
Qed.

(** X17. A write that ends beyond the end of the file (record well formed,
    [0 ≤ offset], end within [size_t]) returns the byte count and makes the
    file end with [buf]: the size becomes [offset + length buf]; the old
    content before [offset] stays; when [offset] lies beyond the old end, the
    bytes in between are what the allocator left there, not zeros.  Name,
    permissions, owner, group and the three time stamps stay as they were,
    and so do all other entries and the counter. *)
Theorem fuseWrite_beyond_end
    (h : host) (path : string) (buf : list byte) (offset : Z)
    (s : MyInMemoryFS) (f : MyFsFileInfo.t) :
  files s !! path = Some f →
  MyFsFileInfo.well_formed f →
  0 ≤ offset →
  MyFsFileInfo.size f < offset + Z.of_nat (length buf) ≤ CInt.SIZE_MAX →
  ∃ s' d,
    fuseWrite h path buf (Z.of_nat (length buf)) offset s
    = (Returned (CInt.to_int (Z.of_nat (length buf))), s') ∧
    files s' !! path
    = Some (MyFsFileInfo.set_data d
              (MyFsFileInfo.set_size (offset + Z.of_nat (length buf)) f)) ∧
    Z.of_nat (length d) = offset + Z.of_nat (length buf) ∧
    (offset ≤ MyFsFileInfo.size f →
     d = take (Z.to_nat offset) (MyFsFileInfo.data f) ++ buf) ∧
    (MyFsFileInfo.size f ≤ offset →
     d = MyFsFileInfo.data f
           ++ gap_bytes h (length (MyFsFileInfo.data f)) offset ++ buf) ∧
    (∀ q, q ≠ path → files s' !! q = files s !! q) ∧
    openFilesCount s' = openFilesCount s.
Proof.
  intros Hf Hwf Hoff Hend.
  rewrite (fuseWrite_beyond_end_result _ _ _ _ _ _ Hf Hwf Hoff Hend).
  destruct Hwf as [Hlen Hmax].
  eexists _, _. split; [reflexivity|]. simpl. rewrite lookup_insert_eq.
  split; [reflexivity|]. split; [|split; [|split; [|split; [|done]]]].
  - unfold gap_bytes.
    rewrite !length_app, length_take, length_fmap, length_seq. lia.
  - intros Hin. unfold gap_bytes.
    replace (Z.to_nat offset - length (MyFsFileInfo.data f))%nat with 0%nat by lia.
    done.
  - intros Hout. rewrite take_ge by lia. done.
  - intros q Hq. by rewrite lookup_insert_ne.
Qed.

Lemma fuseWrite_beyond_end_witness :
  ∃ s' d,
    fuseWrite Scenario.h0 "/a.txt" [x21] 1 7 Scenario.written = (Returned 1, s') ∧
    files s' !! "/a.txt"
    = Some (MyFsFileInfo.set_data d (MyFsFileInfo.set_size 8 Scenario.a_hello)) ∧
    d = Scenario.hello ++ [x00; x00] ++ [x21].
Proof.
  destruct (fuseWrite_beyond_end Scenario.h0 "/a.txt" [x21] 7 Scenario.written
              Scenario.a_hello) as (s' & d & Hrun & Hnew & _ & _ & Hgap & _).
  - vm_compute. reflexivity.
  - vm_compute. split; [reflexivity | discriminate].
  - lia.
  - vm_compute. split; [reflexivity | discriminate].
  - exists s', d. split; [exact Hrun|]. split; [exact Hnew|].
    apply Hgap. vm_compute. discriminate.
Defined.

(** X18. The offset of a write is not checked.  With a negative offset and at
    least one byte to write, the copy starts before the buffer of the file:
    the callback runs into undefined behaviour, for every file in the
    table. *)
Theorem fuseWrite_negative_offset
    (h : host) (path : string) (buf : list byte) (offset : Z) (s : MyInMemoryFS) :
  is_Some (files s !! path) →
  offset < 0 →
  buf ≠ [] →
  (fuseWrite h path buf (Z.of_nat (length buf)) offset s).1 = Undefined_behaviour.
Proof.
  intros [f Hf] Hoff Hbuf. unfold fuseWrite. rewrite Hf.
  rewrite load_all. simpl.
  set (f1 := if decide (MyFsFileInfo.size f < _) then _ else f).
  unfold store. rewrite decide_False by done. rewrite decide_False by lia. done.
Qed.

Lemma fuseWrite_negative_offset_witness :
  (fuseWrite Scenario.h0 "/a.txt" [x21] 1 (-1) Scenario.written).1
  = Undefined_behaviour.
Proof.
  apply (fuseWrite_negative_offset Scenario.h0 "/a.txt" [x21] (-1) Scenario.written).
  - vm_compute. eauto.
  - lia.
  - discriminate.
Defined.

(** The size of the record after a write that stays in range. *)
Lemma fuseWrite_size h path buf offset s f :
  files s !! path = Some f → MyFsFileInfo.well_formed f →
  0 ≤ offset → offset + Z.of_nat (length buf) ≤ CInt.SIZE_MAX →
  ∃ s' f',
    fuseWrite h path buf (Z.of_nat (length buf)) offset s
    = (Returned (CInt.to_int (Z.of_nat (length buf))), s') ∧
    files s' !! path = Some f' ∧
    MyFsFileInfo.size f'
    = Z.max (MyFsFileInfo.size f) (offset + Z.of_nat (length buf)).
Proof.
  intros Hf Hwf Hoff Hend.
  destruct (decide (MyFsFileInfo.size f < offset + Z.of_nat (length buf))) as [Hgrow|Hin].
  - rewrite (fuseWrite_beyond_end_result _ _ _ _ _ _ Hf Hwf Hoff (conj Hgrow Hend)).
    eexists _, _. split; [reflexivity|]. simpl. rewrite lookup_insert_eq.
    split; [reflexivity|]. simpl. lia.
  - destruct Hwf as [Hlen Hmax]. unfold fuseWrite. rewrite Hf.
    rewrite to_size_t_id by lia. rewrite decide_False by done.
    rewrite load_all. simpl.
    destruct (store_in_bounds (MyFsFileInfo.data f) offset buf) as [d Hd]; [lia..|].
    rewrite Hd.
    eexists _, _. split; [reflexivity|]. simpl. rewrite lookup_insert_eq.
    split; [reflexivity|]. simpl. lia.
Qed.

(** X19. After a write in range (record well formed, [0 ≤ offset], sizes
    within [off_t]) [fuseGetattr] reports the larger of the old size and
    [offset + length buf]: a write never shrinks a file and grows it exactly
    to the end of the written range. *)
Theorem fuseWrite_then_fuseGetattr
    (h h' : host) (path : string) (buf : list byte) (offset : Z) (statbuf : stat)
    (s : MyInMemoryFS) (f : MyFsFileInfo.t) :
  files s !! path = Some f →
  MyFsFileInfo.well_formed f →
  path ≠ "/" →
  0 ≤ offset →
  offset + Z.of_nat (length buf) ≤ CInt.OFF_MAX →
  MyFsFileInfo.size f ≤ CInt.OFF_MAX →
  ∃ s' statbuf',
    fuseWrite h path buf (Z.of_nat (length buf)) offset s
    = (Returned (CInt.to_int (Z.of_nat (length buf))), s') ∧
    fuseGetattr h' path statbuf s' = (Returned 0, statbuf', s') ∧
    st_size statbuf' = Z.max (MyFsFileInfo.size f) (offset + Z.of_nat (length buf)).
Proof.
  intros Hf Hwf Hroot Hoff Hend Hsize.
  destruct (fuseWrite_size h path buf offset s f Hf Hwf Hoff) as (s' & f' & Hrun & Hf' & Hsz).
  { unfold CInt.OFF_MAX, CInt.SIZE_MAX in *. lia. }
  exists s'. unfold fuseGetattr. rewrite decide_False by done. rewrite Hf'.
  eexists. split; [exact Hrun|]. split; [reflexivity|]. simpl.
  rewrite Hsz. apply to_off_t_id. destruct Hwf as [Hlen _]. lia.
Qed.

Lemma fuseWrite_then_fuseGetattr_witness :
  ∃ s' statbuf',
    fuseWrite Scenario.h0 "/a.txt" [x21] 1 7 Scenario.written = (Returned 1, s') ∧
    fuseGetattr Scenario.h0 "/a.txt" Scenario.statbuf0 s' = (Returned 0, statbuf', s') ∧
    st_size statbuf' = 8.
Proof.
  apply (fuseWrite_then_fuseGetattr Scenario.h0 Scenario.h0 "/a.txt" [x21] 7
           Scenario.statbuf0 Scenario.written Scenario.a_hello).
  - vm_compute. reflexivity.
  - vm_compute. split; [reflexivity | discriminate].
  - discriminate.
  - lia.
  - vm_compute. discriminate.
  - vm_compute. discriminate.
Defined.

(** ** Truncating *)

Lemma fuseTruncate_result h path k s f :
  files s !! path = Some f → 0 ≤ k ≤ CInt.SIZE_MAX →
  fuseTruncate h path k s
  = (Returned 0,
     set_files
       (<[path := MyFsFileInfo.set_size k
                    (MyFsFileInfo.set_data (realloc (fresh h) (MyFsFileInfo.data f) k) f)]>
          (files s)) s).
Proof.
  intros Hf Hk. unfold fuseTruncate. rewrite Hf. by rewrite to_size_t_id.
Qed.

(** X20. Truncating a file in the table to a size [k] within [size_t]
    (record well formed) succeeds, in either overload.  Shrinking keeps the
    first [k] bytes; growing keeps the whole content and appends what the
    allocator left there, not zeros.  The other fields of the record, the
    other entries and the counter stay as they were. *)
Theorem fuseTruncate_content
    (h : host) (path : string) (k : Z) (s : MyInMemoryFS) (f : MyFsFileInfo.t) :
  files s !! path = Some f →
  MyFsFileInfo.well_formed f →
  0 ≤ k ≤ CInt.SIZE_MAX →
  ∃ s' d,
    fuseTruncate h path k s = (Returned 0, s') ∧
    fuseTruncate_open h path k s = (Returned 0, s') ∧
    files s' !! path = Some (MyFsFileInfo.set_size k (MyFsFileInfo.set_data d f)) ∧
    Z.of_nat (length d) = k ∧
    (k ≤ MyFsFileInfo.size f → d = take (Z.to_nat k) (MyFsFileInfo.data f)) ∧
    (MyFsFileInfo.size f ≤ k →
     d = MyFsFileInfo.data f ++ gap_bytes h (length (MyFsFileInfo.data f)) k) ∧
    (∀ q, q ≠ path → files s' !! q = files s !! q) ∧
    openFilesCount s' = openFilesCount s.
Proof.
  intros Hf [Hlen Hmax] Hk.
  pose proof (fuseTruncate_result h _ _ _ _ Hf Hk) as Hrun.
  eexists _, _. split; [exact Hrun|].
  split; [by rewrite fuseTruncate_open_eq|]. simpl.
  rewrite lookup_insert_eq. split; [reflexivity|].
  split; [rewrite length_realloc; lia|]. split; [|split; [|split; [|done]]].
  - intros Hshrink. apply realloc_shrink. lia.
  - intros Hgrow. apply realloc_grow. lia.
  - intros q Hq. by rewrite lookup_insert_ne.
Qed.

Lemma fuseTruncate_content_witness :
  ∃ s' d,
    fuseTruncate Scenario.h0 "/a.txt" 2 Scenario.written = (Returned 0, s') ∧
    files s' !! "/a.txt"
    = Some (MyFsFileInfo.set_size 2 (MyFsFileInfo.set_data d Scenario.a_hello)) ∧
    d = [x68; x65].
Proof.
  destruct (fuseTruncate_content Scenario.h0 "/a.txt" 2 Scenario.written
              Scenario.a_hello) as (s' & d & Hrun & _ & Hnew & _ & Hshrink & _).
  - vm_compute. reflexivity.
  - vm_compute. split; [reflexivity | discriminate].
  - vm_compute. split; discriminate.
  - exists s', d. split; [exact Hrun|]. split; [exact Hnew|].
    apply Hshrink. vm_compute. discriminate.
Defined.

(** X21. After a file was shortened to [k] bytes, a read that starts at or
    before [k] returns [min(size, k - offset)] bytes, the bytes the file had
    at [offset] before it was shortened; nothing beyond [k] comes back. *)
Theorem fuseTruncate_then_fuseRead
    (h : host) (path : string) (k size offset : Z) (s : MyInMemoryFS)
    (f : MyFsFileInfo.t) :
  files s !! path = Some f →
  MyFsFileInfo.well_formed f →
  0 ≤ k ≤ MyFsFileInfo.size f →
  0 ≤ size ≤ CInt.INT_MAX →
  0 ≤ offset ≤ k →
  ∃ s',
    fuseTruncate h path k s = (Returned 0, s') ∧
    fuseRead path size offset s'
    = (Returned (Z.min size (k - offset)),
       take (Z.to_nat (Z.min size (k - offset)))
         (drop (Z.to_nat offset) (MyFsFileInfo.data f)),
       s').
Proof.
  intros Hf [Hlen Hmax] Hk Hsize Hoff.
  assert (0 ≤ k ≤ CInt.SIZE_MAX) as Hk' by lia.
  pose proof (fuseTruncate_result h _ _ _ _ Hf Hk') as Hrun.
  eexists. split; [exact Hrun|].
  erewrite fuseRead_in_range_result; [|simpl; apply lookup_insert_eq| |done|simpl; lia].
  2:{ split; simpl; [rewrite length_realloc|]; lia. }
  simpl. do 2 f_equal.
  rewrite realloc_shrink by lia.
  replace (Z.to_nat k) with (Z.to_nat offset + (Z.to_nat k - Z.to_nat offset))%nat
    by lia.
  rewrite <- take_drop_commute.
  rewrite take_take. f_equal. lia.
Qed.

Lemma fuseTruncate_then_fuseRead_witness :
  ∃ s',
    fuseTruncate Scenario.h0 "/a.txt" 2 Scenario.written = (Returned 0, s') ∧
    fuseRead "/a.txt" 5 0 s' = (Returned 2, [x68; x65], s').
Proof.
  apply (fuseTruncate_then_fuseRead Scenario.h0 "/a.txt" 2 5 0 Scenario.written
           Scenario.a_hello).
  - vm_compute. reflexivity.
  - vm_compute. split; [reflexivity | discriminate].
  - vm_compute. split; discriminate.
  - vm_compute. split; discriminate.
  - lia.
Defined.

(** ** Listing the directory *)

Lemma reachable_names_inv NAME_LENGTH NUM_DIR_ENTRIES NUM_OPEN_FILES s :
  reachable NAME_LENGTH NUM_DIR_ENTRIES NUM_OPEN_FILES s → names_match_keys s.
Proof.
  induction 1 as [|h c s r s' _ IH Hrun _].
  - apply map_Forall_empty.
  - by eapply run_names_match_keys.
Qed.

Lemma fuseReaddir_root_names s x :
  x ∈ (λ it : string * MyFsFileInfo.t, MyFsFileInfo.name it.2) <$> map_to_list (files s)
  ↔ ∃ k f, files s !! k = Some f ∧ MyFsFileInfo.name f = x.
Proof.
  rewrite list_elem_of_fmap. split.
  - intros ([k f] & -> & Hin). apply elem_of_map_to_list in Hin. eauto.
  - intros (k & f & Hf & <-). exists (k, f). split; [done|].
    by apply elem_of_map_to_list.
Qed.

(** X22. [fuseReaddir] always succeeds and always hands "." and ".." to the
    filler first.  For a path other than the root nothing follows; for the
    root one name follows per entry of the table, namely the [name] fields of
    the records. *)
Theorem fuseReaddir_entries (path : string) (s : MyInMemoryFS) :
  ∃ names,
    fuseReaddir path s = (Returned 0, "." :: ".." :: names, s) ∧
    (path ≠ "/" → names = []) ∧
    (path = "/" →
     length names = size (files s) ∧
     ∀ x, x ∈ names ↔ ∃ k f, files s !! k = Some f ∧ MyFsFileInfo.name f = x).
Proof.
  unfold fuseReaddir. eexists. split; [reflexivity|]. split.
  - intros Hne. by rewrite decide_False.
  - intros ->. rewrite decide_True by done. split.
    + by rewrite length_fmap, length_map_to_list.
    + apply fuseReaddir_root_names.
Qed.

(** X23. In every reachable state the listing of the root shows, after "."
    and "..", exactly the keys of the table without their first character (a
    file created as "/a.txt" is listed as "a.txt", a renamed file under its
    new name, a deleted file not at all), one line per entry. *)
Theorem fuseReaddir_lists_the_keys
    (NAME_LENGTH NUM_DIR_ENTRIES NUM_OPEN_FILES : Z) (s : MyInMemoryFS) (x : string) :
  reachable NAME_LENGTH NUM_DIR_ENTRIES NUM_OPEN_FILES s →
  length (fuseReaddir "/" s).1.2 = (2 + size (files s))%nat ∧
  (x ∈ (fuseReaddir "/" s).1.2 ↔
   x = "." ∨ x = ".." ∨ ∃ k, is_Some (files s !! k) ∧ x = path_plus_1 k).
Proof.
  intros Hs. pose proof (reachable_names_inv _ _ _ _ Hs) as Hnames.
  unfold fuseReaddir. cbn [fst snd]. rewrite decide_True by done. split.
  - cbn [length]. by rewrite length_fmap, length_map_to_list.
  - rewrite !elem_of_cons, fuseReaddir_root_names. split.
    + intros [->|[->|(k & f & Hf & <-)]]; [by left | by right; left |].
      right; right. exists k. split; [eauto|].
      by eapply names_match_keys_lookup.
    + intros [->|[->|(k & [f Hf] & ->)]]; [by left | by right; left |].
      right; right. exists k, f. split; [done|].
      by eapply names_match_keys_lookup.
Qed.

Lemma fuseReaddir_lists_the_keys_witness :
  length (fuseReaddir "/" Scenario.two_files).1.2 = 4%nat ∧
  "b.txt" ∈ (fuseReaddir "/" Scenario.two_files).1.2.
Proof.
  destruct (fuseReaddir_lists_the_keys 255 64 64 Scenario.two_files "b.txt"
              reachable_two_files) as [Hlen Hin].
  split.
  - rewrite Hlen. vm_compute. reflexivity.
  - apply Hin. right; right. exists "/b.txt". split; [|reflexivity].
    vm_compute. eauto.
Defined.

(** ** Unknown names *)

(** X24. Every callback that works on one existing file answers a path that
    is not in the table (and is not the root, for the attributes) with
    [-ENOENT] and leaves the object as it was: delete, attributes, chmod,
    chown, open, read, write, close and both truncates. *)
Theorem absent_path_is_ENOENT
    (NUM_OPEN_FILES : Z) (h : host) (path : string) (s : MyInMemoryFS)
    (statbuf : stat) (mode uid gid size offset newSize : Z) (buf : list byte) :
  files s !! path = None →
  path ≠ "/" →
  fuseUnlink path s = (Returned (- Errno.ENOENT), s) ∧
  (fuseGetattr h path statbuf s).1.1 = Returned (- Errno.ENOENT) ∧
  fuseChmod path mode s = (Returned (- Errno.ENOENT), s) ∧
  fuseChown path uid gid s = (Returned (- Errno.ENOENT), s) ∧
  fuseOpen NUM_OPEN_FILES path s = (Returned (- Errno.ENOENT), s) ∧
  fuseRead path size offset s = (Returned (- Errno.ENOENT), [], s) ∧
  fuseWrite h path buf size offset s = (Returned (- Errno.ENOENT), s) ∧
  fuseRelease path s = (Returned (- Errno.ENOENT), s) ∧
  fuseTruncate h path newSize s = (Returned (- Errno.ENOENT), s) ∧
  fuseTruncate_open h path newSize s = (Returned (- Errno.ENOENT), s).
Proof.
  intros Hf Hroot.
  unfold fuseUnlink, fuseGetattr, fuseChmod, fuseChown, fuseOpen, fuseRead,
    fuseWrite, fuseRelease, fuseTruncate, fuseTruncate_open.
  rewrite Hf. rewrite decide_False by done. repeat split.
Qed.

Lemma absent_path_is_ENOENT_witness :
  fuseUnlink "/c.txt" Scenario.two_files = (Returned (- Errno.ENOENT), Scenario.two_files) ∧
  fuseOpen 64 "/c.txt" Scenario.two_files = (Returned (- Errno.ENOENT), Scenario.two_files) ∧
  fuseWrite Scenario.h0 "/c.txt" Scenario.hello 5 0 Scenario.two_files
  = (Returned (- Errno.ENOENT), Scenario.two_files).
Proof.
  destruct (absent_path_is_ENOENT 64 Scenario.h0 "/c.txt" Scenario.two_files
              Scenario.statbuf0 0 0 0 5 0 0 Scenario.hello)
    as (Hunlink & _ & _ & _ & Hopen & _ & Hwrite & _).
  - vm_compute. reflexivity.
  - discriminate.
  - split; [exact Hunlink|]. split; [exact Hopen | exact Hwrite].
Defined.
